(** * Noel: gesture-driven Christmas tree

    A shallow embedding of the two scripts of the repository:

    - the hand tracking module ([HandTracker]): the per-frame gesture
      classifier and the five-frame majority smoother;
    - the main application ([Main]): the display state machine
      (tree / exploded / zoomed), the morph engine and the orbit selector.

    JavaScript numbers of the hand tracker are IEEE binary64 values and are
    modelled by Rocq's primitive floats, so the classifier computes here
    what it computes in the browser.  The scalars of the main script
    (morph progress, opacities, rotations) are modelled by exact rationals:
    the properties stated about them are order and clamping properties, and
    [Math.sin] / [Math.cos], which have no rational counterpart, are
    parameters of the model.  Integer-valued variables are [Z] or [nat]. *)

From Stdlib Require Import ZArith QArith Qminmax Lqa Lia List Bool String Floats.
From stdpp Require Import base list.
Import ListNotations.

Set Warnings "-inexact-float,-abstract-large-number,-notation-for-abbreviation".

(** ** A small error monad

    Reading a property of [undefined] raises a [TypeError]; a function that
    can do so returns [None] on that path. *)

Definition bind {A B : Type} (m : option A) (k : A -> option B) : option B :=
  match m with
  | Some a => k a
  | None => None
  end.

Notation "'let?' x ':=' m 'in' k" := (bind m (fun x => k))
  (at level 10, x name, m at level 100, k at level 200).

(** * The hand tracking module *)

Module HandTracker.

Open Scope float_scope.

(** One tracked point of the hand skeleton, in normalized image units. *)
Record Landmark : Type := mkLandmark { x : float; y : float }.

(** The gesture labels: the strings ['none'], ['fist'], ['open'], ['ok']. *)
Inductive Gesture : Type := none | fist | open | ok.

Definition Gesture_eqb (a b : Gesture) : bool :=
  match a, b with
  | none, none | fist, fist | open, open | ok, ok => true
  | _, _ => false
  end.

Definition Gesture_eq_dec (a b : Gesture) : {a = b} + {a <> b}.
Proof. decide equality. Defined.

(** [Math.pow(v, 2)]: the square, rounded once. *)
Definition Math_pow_2 (v : float) : float := v * v.

(** The loop of [getFingersExtended] over [fingerTips] and [fingerPips]:
    one flag is pushed per finger, tip above PIP in image space. *)
Fixpoint pushFingers (landmarks : list Landmark) (tipsPips : list (nat * nat))
    (extended : list bool) : option (list bool) :=
  match tipsPips with
  | [] => Some extended
  | (tip, pip) :: rest =>
      let? t := landmarks !! tip in
      let? p := landmarks !! pip in
      let tipY := y t in
      let pipY := y p in
      pushFingers landmarks rest (extended ++ [tipY <? pipY])
  end.

Definition getFingersExtended (landmarks : list Landmark) : option (list bool) :=
  let? l4 := landmarks !! 4%nat in
  let? l3 := landmarks !! 3%nat in
  let thumbExtended := x l4 <? x l3 in
  let extended := [thumbExtended] in
  let fingerTips := [8; 12; 16; 20]%nat in
  let fingerPips := [6; 10; 14; 18]%nat in
  pushFingers landmarks (combine fingerTips fingerPips) extended.

(** [fingersExtended[i]] used as a condition: a missing entry is falsy. *)
Definition flag (fingersExtended : list bool) (i : nat) : bool :=
  nth i fingersExtended false.

(** The thumb-tip to index-tip distance computed by [isOKGesture]. *)
Definition distance (thumbTip indexTip : Landmark) : float :=
  sqrt (Math_pow_2 (x thumbTip - x indexTip) +
        Math_pow_2 (y thumbTip - y indexTip)).

Definition isOKGesture (landmarks : list Landmark) (fingersExtended : list bool)
    : option bool :=
  let? thumbTip := landmarks !! 4%nat in
  let? indexTip := landmarks !! 8%nat in
  let isTouching := distance thumbTip indexTip <? 0.08 in
  let otherFingersExtended :=
    flag fingersExtended 2 && flag fingersExtended 3 && flag fingersExtended 4 in
  Some (isTouching && otherFingersExtended).

(** [fingersExtended.filter(f => f).length]. *)
Definition extendedCount (fingersExtended : list bool) : nat :=
  length (List.filter (fun f => f) fingersExtended).

Definition detectGesture (landmarks : list Landmark) : option Gesture :=
  let? fingersExtended := getFingersExtended landmarks in
  let extendedCount := extendedCount fingersExtended in
  let? isOK := isOKGesture landmarks fingersExtended in
  if isOK then Some ok
  else if (extendedCount <=? 1)%nat then Some fist
  else if (4 <=? extendedCount)%nat then Some open
  else Some none.

(** *** The smoother *)

(** The fields of a [HandTracker] object that gesture recognition reads and
    writes.  [onGestureChange] records whether a callback is installed
    ([null] in the constructor); the callback itself belongs to the main
    script. *)
Record Tracker : Type := mkTracker {
  currentGesture : Gesture;
  landmarks : option (list Landmark);
  onGestureChange : bool;
  gestureHistory : list Gesture;
  historySize : nat
}.

(** [new HandTracker()]. *)
Definition constructor : Tracker :=
  {| currentGesture := none;
     landmarks := None;
     onGestureChange := false;
     gestureHistory := [];
     historySize := 5 |}.

(** [gestureCounts[g] = (gestureCounts[g] || 0) + 1] on an object whose own
    string keys are enumerated in insertion order: an existing key keeps its
    place, a new key goes last. *)
Fixpoint bump (g : Gesture) (gestureCounts : list (Gesture * nat))
    : list (Gesture * nat) :=
  match gestureCounts with
  | [] => [(g, 1%nat)]
  | (k, count) :: rest =>
      if Gesture_eqb k g then (k, S count) :: rest
      else (k, count) :: bump g rest
  end.

(** [this.gestureHistory.forEach(g => ...)] starting from [{}]. *)
Definition tally (gestureHistory : list Gesture) : list (Gesture * nat) :=
  fold_left (fun gestureCounts g => bump g gestureCounts) gestureHistory [].

(** The [for (const [g, count] of Object.entries(gestureCounts))] loop; the
    accumulator is [(maxCount, smoothedGesture)]. *)
Definition scan (gestureCounts : list (Gesture * nat)) (acc : nat * Gesture)
    : nat * Gesture :=
  fold_left
    (fun '(maxCount, smoothedGesture) '(g, count) =>
       if (maxCount <? count)%nat then (count, g)
       else (maxCount, smoothedGesture))
    gestureCounts acc.

(** The most frequent gesture of a history, as [updateGesture] computes it. *)
Definition smoothed (gestureHistory : list Gesture) : Gesture :=
  snd (scan (tally gestureHistory) (0%nat, none)).

(** [push] followed by the conditional [shift]. *)
Definition pushHistory (gestureHistory : list Gesture) (historySize : nat)
    (gesture : Gesture) : list Gesture :=
  let h := gestureHistory ++ [gesture] in
  if (historySize <? length h)%nat then tl h else h.

(** [updateGesture(gesture)]: the tracker afterwards, and the label the
    callback was called with, if it was called. *)
Definition updateGesture (gesture : Gesture) (t : Tracker)
    : Tracker * option Gesture :=
  let h := pushHistory (gestureHistory t) (historySize t) gesture in
  let smoothedGesture := smoothed h in
  if negb (Gesture_eqb smoothedGesture (currentGesture t)) then
    ({| currentGesture := smoothedGesture;
        landmarks := landmarks t;
        onGestureChange := onGestureChange t;
        gestureHistory := h;
        historySize := historySize t |},
     if onGestureChange t then Some smoothedGesture else None)
  else
    ({| currentGesture := currentGesture t;
        landmarks := landmarks t;
        onGestureChange := onGestureChange t;
        gestureHistory := h;
        historySize := historySize t |},
     None).

(** [analyzeGesture()]: nothing without landmarks, otherwise classify and
    smooth. *)
Definition analyzeGesture (t : Tracker) : option (Tracker * option Gesture) :=
  match landmarks t with
  | None => Some (t, None)
  | Some lm =>
      let? gesture := detectGesture lm in
      Some (updateGesture gesture t)
  end.

(** [onResults(results)]: [hand] is [results.multiHandLandmarks[0]] when
    a hand was detected.  The rotation and the position of the hand, which
    are computed next and do not bear on the gesture, are left out. *)
Definition onResults (hand : option (list Landmark)) (t : Tracker)
    : option (Tracker * option Gesture) :=
  let seen (lm : option (list Landmark)) :=
    {| currentGesture := currentGesture t;
       landmarks := lm;
       onGestureChange := onGestureChange t;
       gestureHistory := gestureHistory t;
       historySize := historySize t |} in
  match hand with
  | Some lm => analyzeGesture (seen (Some lm))
  | None => Some (updateGesture none (seen None))
  end.

(** A stream of raw labels fed to the smoother one by one; the emitted
    change events are collected in order. *)
Fixpoint feed (raws : list Gesture) (t : Tracker) : Tracker * list Gesture :=
  match raws with
  | [] => (t, [])
  | g :: rest =>
      let '(t1, e) := updateGesture g t in
      let '(t2, es) := feed rest t1 in
      (t2, match e with Some l => l :: es | None => es end)
  end.

End HandTracker.

(** * The main application *)

Module Main.

Import HandTracker(Gesture, none, fist, open, ok).

Open Scope Q_scope.

(** ** Configuration *)

Record Config : Type := mkConfig {
  particleCount : nat;
  treeHeight : Q;
  treeRadius : Q;
  transitionSpeed : Q;
  rotationSpeed : Q;
  autoRotate : bool;
  autoRotateSpeed : Q;
  ornamentCount : nat;
  lightsCount : nat
}.

Definition CONFIG : Config :=
  {| particleCount := 10000;
     treeHeight := 12;
     treeRadius := 7;
     transitionSpeed := 0.06;
     rotationSpeed := 0.008;
     autoRotate := true;
     autoRotateSpeed := 0.002;
     ornamentCount := 20;
     lightsCount := 80 |}.

Definition SAMPLE_IMAGES : list string :=
  [ "../hinh/z7326700462084_d02bb6716052953273e0c6072e069a32.jpg";
    "../hinh/z7326700472056_30571a02816fe4d5e9029c2318ca065c.jpg";
    "../hinh/z7326700472393_39b8d88b7197a04534eb89549af0c5ac.jpg";
    "../hinh/z7326700484819_1e647e5620d79d617e917fa17f47dbf2.jpg";
    "../hinh/z7326728321492_c132391ea28a748af058fb729d9f69c4.jpg";
    "../hinh/z7326728333619_6346659400153bb8dc6273de05342604.jpg" ]%string.

(** ** Numbers *)

(** [a < b] on numbers. *)
Definition Qltb (a b : Q) : bool :=
  match a ?= b with
  | Lt => true
  | _ => false
  end.

(** A number or [-Infinity] (the initial [maxZ]). *)
Inductive QInf : Type :=
| NegInfinity
| Fin (q : Q).

(** [z > maxZ]. *)
Definition gtInf (z : Q) (maxZ : QInf) : bool :=
  match maxZ with
  | NegInfinity => true
  | Fin m => Qltb m z
  end.

(** [Math.PI], the binary64 value nearest to pi. *)
Definition Math_PI : Q := 884279719003555 # 281474976710656.

Definition lerp (a b t : Q) : Q := a + (b - a) * t.

Definition easeInOutCubic (t : Q) : Q :=
  if Qltb t 0.5
  then 4 * t * t * t
  else 1 - (-2 * t + 2) ^ 3 / 2.

(** ** Data *)

Inductive DisplayState : Type := tree | exploded | zoomed.

Definition DisplayState_eqb (a b : DisplayState) : bool :=
  match a, b with
  | tree, tree | exploded, exploded | zoomed, zoomed => true
  | _, _ => false
  end.

Record Vec3 : Type := mkVec3 { x : Q; y : Q; z : Q }.

(** An image sprite: its material opacity, its pose, and its [userData]. *)
Record Sprite : Type := mkSprite {
  opacity : Q;
  position : Vec3;
  scale : Vec3;
  url : string;
  index : nat;
  originalScale : Q;
  baseAngle : option Q;
  isSelected : bool
}.

(** What [updateGestureUI] last displayed (icon and text). *)
Inductive UiLabel : Type :=
| UiInitial
| UiFist
| UiOpen
| UiOk
| UiReturned
| UiWaiting
| UiImage (forward : bool) (shown : Z) (total : nat).

(** The keys the keyboard listeners distinguish, after [toLowerCase]. *)
Inductive Key : Type :=
| Key_f
| Key_o
| Key_z
| Key_arrowleft
| Key_arrowright
| Key_other.

(** The global variables of the script.  Ornaments, the light string and
    the star are not part of the model: [updateDecorations] and the star
    rotation read [morphProgress], [treeRotation] and the clock but write
    only to those objects.  Neither are [imageTreePositions] and
    [imageExplodedPositions], which [setupImages] fills and nothing reads,
    nor the global [handPosition], which nothing uses. *)
Record Scene : Type := mkScene {
  time : Q;  (* [particleMaterial.uniforms.time.value] *)
  positions : list Q;  (* [particleGeometry.attributes.position.array], without its rounding to single precision *)
  originalPositions : list Vec3;
  treePositions : list Vec3;
  currentPositions : list Vec3;
  imageSprites : list Sprite;
  currentState : DisplayState;
  morphProgress : Q;
  treeRotation : Q;
  targetRotation : Q;
  zoomedSprite : option nat;  (* index in [imageSprites] of the zoomed sprite, or [null] *)
  previousState : DisplayState;
  selectedImageIndex : Z;
  zoomOverlayHidden : bool;  (* the [hidden] class of [#zoom-overlay] *)
  zoomedImageSrc : string;  (* [src] of [#zoomed-image] *)
  gestureUI : UiLabel  (* [#gesture-icon] and [#gesture-text] *)
}.

(** Assignment to one global variable. *)

Definition set_time (v : Q) (s : Scene) : Scene :=
  mkScene v (positions s) (originalPositions s) (treePositions s)
    (currentPositions s) (imageSprites s) (currentState s) (morphProgress s)
    (treeRotation s) (targetRotation s) (zoomedSprite s) (previousState s)
    (selectedImageIndex s) (zoomOverlayHidden s) (zoomedImageSrc s)
    (gestureUI s).

Definition set_positions (v : list Q) (s : Scene) : Scene :=
  mkScene (time s) v (originalPositions s) (treePositions s)
    (currentPositions s) (imageSprites s) (currentState s) (morphProgress s)
    (treeRotation s) (targetRotation s) (zoomedSprite s) (previousState s)
    (selectedImageIndex s) (zoomOverlayHidden s) (zoomedImageSrc s)
    (gestureUI s).

Definition set_originalPositions (v : list Vec3) (s : Scene) : Scene :=
  mkScene (time s) (positions s) v (treePositions s) (currentPositions s)
    (imageSprites s) (currentState s) (morphProgress s) (treeRotation s)
    (targetRotation s) (zoomedSprite s) (previousState s)
    (selectedImageIndex s) (zoomOverlayHidden s) (zoomedImageSrc s)
    (gestureUI s).

Definition set_treePositions (v : list Vec3) (s : Scene) : Scene :=
  mkScene (time s) (positions s) (originalPositions s) v (currentPositions s)
    (imageSprites s) (currentState s) (morphProgress s) (treeRotation s)
    (targetRotation s) (zoomedSprite s) (previousState s)
    (selectedImageIndex s) (zoomOverlayHidden s) (zoomedImageSrc s)
    (gestureUI s).

Definition set_currentPositions (v : list Vec3) (s : Scene) : Scene :=
  mkScene (time s) (positions s) (originalPositions s) (treePositions s) v
    (imageSprites s) (currentState s) (morphProgress s) (treeRotation s)
    (targetRotation s) (zoomedSprite s) (previousState s)
    (selectedImageIndex s) (zoomOverlayHidden s) (zoomedImageSrc s)
    (gestureUI s).

Definition set_imageSprites (v : list Sprite) (s : Scene) : Scene :=
  mkScene (time s) (positions s) (originalPositions s) (treePositions s)
    (currentPositions s) v (currentState s) (morphProgress s) (treeRotation s)
    (targetRotation s) (zoomedSprite s) (previousState s)
    (selectedImageIndex s) (zoomOverlayHidden s) (zoomedImageSrc s)
    (gestureUI s).

Definition set_currentState (v : DisplayState) (s : Scene) : Scene :=
  mkScene (time s) (positions s) (originalPositions s) (treePositions s)
    (currentPositions s) (imageSprites s) v (morphProgress s) (treeRotation s)
    (targetRotation s) (zoomedSprite s) (previousState s)
    (selectedImageIndex s) (zoomOverlayHidden s) (zoomedImageSrc s)
    (gestureUI s).

Definition set_morphProgress (v : Q) (s : Scene) : Scene :=
  mkScene (time s) (positions s) (originalPositions s) (treePositions s)
    (currentPositions s) (imageSprites s) (currentState s) v (treeRotation s)
    (targetRotation s) (zoomedSprite s) (previousState s)
    (selectedImageIndex s) (zoomOverlayHidden s) (zoomedImageSrc s)
    (gestureUI s).

Definition set_treeRotation (v : Q) (s : Scene) : Scene :=
  mkScene (time s) (positions s) (originalPositions s) (treePositions s)
    (currentPositions s) (imageSprites s) (currentState s) (morphProgress s) v
    (targetRotation s) (zoomedSprite s) (previousState s)
    (selectedImageIndex s) (zoomOverlayHidden s) (zoomedImageSrc s)
    (gestureUI s).

Definition set_targetRotation (v : Q) (s : Scene) : Scene :=
  mkScene (time s) (positions s) (originalPositions s) (treePositions s)
    (currentPositions s) (imageSprites s) (currentState s) (morphProgress s)
    (treeRotation s) v (zoomedSprite s) (previousState s)
    (selectedImageIndex s) (zoomOverlayHidden s) (zoomedImageSrc s)
    (gestureUI s).

Definition set_zoomedSprite (v : option nat) (s : Scene) : Scene :=
  mkScene (time s) (positions s) (originalPositions s) (treePositions s)
    (currentPositions s) (imageSprites s) (currentState s) (morphProgress s)
    (treeRotation s) (targetRotation s) v (previousState s)
    (selectedImageIndex s) (zoomOverlayHidden s) (zoomedImageSrc s)
    (gestureUI s).

Definition set_previousState (v : DisplayState) (s : Scene) : Scene :=
  mkScene (time s) (positions s) (originalPositions s) (treePositions s)
    (currentPositions s) (imageSprites s) (currentState s) (morphProgress s)
    (treeRotation s) (targetRotation s) (zoomedSprite s) v
    (selectedImageIndex s) (zoomOverlayHidden s) (zoomedImageSrc s)
    (gestureUI s).

Definition set_selectedImageIndex (v : Z) (s : Scene) : Scene :=
  mkScene (time s) (positions s) (originalPositions s) (treePositions s)
    (currentPositions s) (imageSprites s) (currentState s) (morphProgress s)
    (treeRotation s) (targetRotation s) (zoomedSprite s) (previousState s) v
    (zoomOverlayHidden s) (zoomedImageSrc s) (gestureUI s).

Definition set_zoomOverlayHidden (v : bool) (s : Scene) : Scene :=
  mkScene (time s) (positions s) (originalPositions s) (treePositions s)
    (currentPositions s) (imageSprites s) (currentState s) (morphProgress s)
    (treeRotation s) (targetRotation s) (zoomedSprite s) (previousState s)
    (selectedImageIndex s) v (zoomedImageSrc s) (gestureUI s).

Definition set_zoomedImageSrc (v : string) (s : Scene) : Scene :=
  mkScene (time s) (positions s) (originalPositions s) (treePositions s)
    (currentPositions s) (imageSprites s) (currentState s) (morphProgress s)
    (treeRotation s) (targetRotation s) (zoomedSprite s) (previousState s)
    (selectedImageIndex s) (zoomOverlayHidden s) v (gestureUI s).

Definition set_gestureUI (v : UiLabel) (s : Scene) : Scene :=
  mkScene (time s) (positions s) (originalPositions s) (treePositions s)
    (currentPositions s) (imageSprites s) (currentState s) (morphProgress s)
    (treeRotation s) (targetRotation s) (zoomedSprite s) (previousState s)
    (selectedImageIndex s) (zoomOverlayHidden s) (zoomedImageSrc s) v.

(** The globals as declared, before [init] runs. *)
Definition globals : Scene :=
  {| time := 0;
     positions := [];
     originalPositions := [];
     treePositions := [];
     currentPositions := [];
     imageSprites := [];
     currentState := tree;
     morphProgress := 1;
     treeRotation := 0;
     targetRotation := 0;
     zoomedSprite := None;
     previousState := tree;
     selectedImageIndex := 0%Z;
     zoomOverlayHidden := true;
     zoomedImageSrc := EmptyString;
     gestureUI := UiInitial |}.

(** ** Setup *)

(** The loop of [setupParticles].  [treeGen i] stands for the value of
    [generateTreePosition(i, count)] and [explodedGen i] for the random
    exploded position drawn at iteration [i]. *)
Fixpoint setupParticlesLoop (treeGen explodedGen : nat -> Vec3)
    (i : nat) (n : nat) (s : Scene) : Scene :=
  match n with
  | O => s
  | S n' =>
      let treePos := treeGen i in
      let explodedPos := explodedGen i in
      let s := set_treePositions (treePositions s ++ [treePos]) s in
      let s := set_originalPositions (originalPositions s ++ [explodedPos]) s in
      let s := set_positions
                 (<[(i * 3 + 2)%nat := z treePos]>
                    (<[(i * 3 + 1)%nat := y treePos]>
                       (<[(i * 3)%nat := x treePos]> (positions s)))) s in
      let s := set_currentPositions
                 (currentPositions s ++ [mkVec3 (x treePos) (y treePos) (z treePos)]) s in
      setupParticlesLoop treeGen explodedGen (S i) n' s
  end.

Definition setupParticles (treeGen explodedGen : nat -> Vec3) (count : nat)
    (s : Scene) : Scene :=
  let positions := repeat 0 (count * 3) in
  setupParticlesLoop treeGen explodedGen 0 count (set_positions positions s).

(** The state in which the first animation frame runs. *)
Definition init (treeGen explodedGen : nat -> Vec3) : Scene :=
  setupParticles treeGen explodedGen (particleCount CONFIG) globals.

(** ** Gesture handling *)

Definition updateGestureUI (label : UiLabel) (s : Scene) : Scene :=
  set_gestureUI label s.

Definition unzoomImage (s : Scene) : Scene :=
  set_zoomedSprite None (set_zoomOverlayHidden true s).

(** The [forEach] of [zoomToNearestImage]: the last sprite whose
    [isSelected] flag is set. *)
Fixpoint findSelected (sprites : list Sprite) (i : nat) (bestImage : option nat)
    : option nat :=
  match sprites with
  | [] => bestImage
  | sprite :: rest =>
      findSelected rest (S i) (if isSelected sprite then Some i else bestImage)
  end.

(** The sprite [zoomToNearestImage] would zoom: the selected one, or the
    one at [selectedImageIndex]. *)
Definition bestImage (s : Scene) : option nat :=
  match findSelected (imageSprites s) 0 None with
  | Some i => Some i
  | None =>
      if (0 <=? selectedImageIndex s)%Z
         && (selectedImageIndex s <? Z.of_nat (length (imageSprites s)))%Z
      then Some (Z.to_nat (selectedImageIndex s))
      else None
  end.

(** The three assignments and the overlay update shared by both zoom
    functions. *)
Definition enterZoom (i : nat) (sprite : Sprite) (s : Scene) : Scene :=
  let s := set_previousState (currentState s) s in
  let s := set_currentState zoomed s in
  let s := set_zoomedSprite (Some i) s in
  let s := set_zoomedImageSrc (url sprite) s in
  set_zoomOverlayHidden false s.

Definition zoomToNearestImage (s : Scene) : Scene :=
  if (length (imageSprites s) =? 0)%nat then s
  else if DisplayState_eqb (currentState s) zoomed then s
  else
    match bestImage s with
    | None => s
    | Some i =>
        match imageSprites s !! i with
        | None => s
        | Some sprite =>
            if Qltb 0.3 (opacity sprite) then enterZoom i sprite s else s
        end
    end.

Definition zoomSelectedImage (s : Scene) : Scene :=
  if (length (imageSprites s) =? 0)%nat then s
  else if DisplayState_eqb (currentState s) zoomed then s
  else if (selectedImageIndex s <? 0)%Z
          || (Z.of_nat (length (imageSprites s)) <=? selectedImageIndex s)%Z
  then s
  else
    let i := Z.to_nat (selectedImageIndex s) in
    match imageSprites s !! i with
    | None => s
    | Some selectedSprite =>
        if Qltb (opacity selectedSprite) 0.3 then s
        else enterZoom i selectedSprite s
    end.

Definition handleGestureChange (gesture : Gesture) (s : Scene) : Scene :=
  match gesture with
  | fist =>
      let s := if DisplayState_eqb (currentState s) zoomed
               then unzoomImage s else s in
      let s := set_currentState tree s in
      updateGestureUI UiFist s
  | open =>
      let s := if DisplayState_eqb (currentState s) zoomed
               then unzoomImage s else s in
      let s := set_currentState exploded s in
      let s := set_previousState exploded s in
      updateGestureUI UiOpen s
  | ok =>
      if DisplayState_eqb (currentState s) exploded
         || DisplayState_eqb (previousState s) exploded
      then updateGestureUI UiOk (zoomToNearestImage s)
      else s
  | none =>
      if DisplayState_eqb (currentState s) zoomed
      then
        let s := unzoomImage s in
        let s := set_currentState (previousState s) s in
        updateGestureUI UiReturned s
      else updateGestureUI UiWaiting s
  end.

(** ** Keyboard fallback *)

Definition keydown (key : Key) (s : Scene) : Scene :=
  match key with
  | Key_f =>
      let s := if DisplayState_eqb (currentState s) zoomed
               then unzoomImage s else s in
      let s := set_currentState tree s in
      updateGestureUI UiFist s
  | Key_o =>
      let s := if DisplayState_eqb (currentState s) zoomed
               then unzoomImage s else s in
      let s := set_currentState exploded s in
      let s := set_previousState exploded s in
      updateGestureUI UiOpen s
  | Key_z =>
      if DisplayState_eqb (currentState s) exploded
         || DisplayState_eqb (previousState s) exploded
      then updateGestureUI UiOk (zoomSelectedImage s)
      else s
  | Key_arrowleft =>
      if DisplayState_eqb (currentState s) exploded
      then
        let s := set_selectedImageIndex
                   (Z.max 0 (selectedImageIndex s - 1)) s in
        updateGestureUI
          (UiImage false (selectedImageIndex s + 1) (length SAMPLE_IMAGES)) s
      else set_targetRotation (targetRotation s - 0.5) s
  | Key_arrowright =>
      if DisplayState_eqb (currentState s) exploded
      then
        let s := set_selectedImageIndex
                   (Z.min (Z.of_nat (length SAMPLE_IMAGES) - 1)
                          (selectedImageIndex s + 1)) s in
        updateGestureUI
          (UiImage true (selectedImageIndex s + 1) (length SAMPLE_IMAGES)) s
      else set_targetRotation (targetRotation s + 0.5) s
  | Key_other => s
  end.

Definition keyup (key : Key) (s : Scene) : Scene :=
  match key with
  | Key_z =>
      if DisplayState_eqb (currentState s) zoomed
      then
        let s := unzoomImage s in
        let s := set_currentState (previousState s) s in
        updateGestureUI UiReturned s
      else s
  | _ => s
  end.

(** ** Zoom overlay *)

(** Click on [#close-zoom]. *)
Definition closeZoomClick (s : Scene) : Scene :=
  set_currentState exploded (set_zoomOverlayHidden true s).

(** Click on [#zoom-overlay]; [onBackground] tells whether the overlay
    itself was the target. *)
Definition overlayClick (onBackground : bool) (s : Scene) : Scene :=
  if onBackground
  then set_currentState exploded (set_zoomOverlayHidden true s)
  else s.

(** ** Animation loop *)

Section Animation.

(** [Math.sin] and [Math.cos]. *)
Variables (Math_sin Math_cos : Q -> Q).

(** The [for] loop of [updateParticlePositions] over the remaining indices
    [indices]: particle [i] is moved, and its three coordinates are written to
    the position buffer (a typed array: a write past its end is dropped). *)
Fixpoint particleLoop (morphProgress : Q) (treePositions originalPositions : list Vec3)
    (indices : list nat) (currentPositions : list Vec3) (positions : list Q)
    : option (list Vec3 * list Q) :=
  match indices with
  | [] => Some (currentPositions, positions)
  | i :: rest =>
      let? tree := treePositions !! i in
      let? exploded := originalPositions !! i in
      let t := easeInOutCubic morphProgress in
      let current :=
        {| x := lerp (x exploded) (x tree) t;
           y := lerp (y exploded) (y tree) t;
           z := lerp (z exploded) (z tree) t |} in
      let currentPositions := <[i := current]> currentPositions in
      let positions := <[(i * 3)%nat := x current]> positions in
      let positions := <[(i * 3 + 1)%nat := y current]> positions in
      let positions := <[(i * 3 + 2)%nat := z current]> positions in
      particleLoop morphProgress treePositions originalPositions rest
        currentPositions positions
  end.

Definition updateParticlePositions (s : Scene) : option Scene :=
  let? r := particleLoop (morphProgress s) (treePositions s) (originalPositions s)
              (seq 0 (length (currentPositions s)))
              (currentPositions s) (positions s) in
  Some (set_positions (snd r) (set_currentPositions (fst r) s)).

Definition hiddenRadius : Q := 0.5.
Definition orbitRadius : Q := 8.

(** The texture-load callback of [setupImages] for [SAMPLE_IMAGES[index]]:
    the sprite starts on the hidden circle, transparent, at scale 2, and is
    pushed to [imageSprites]. *)
Definition textureLoaded (index : nat) (url : string) (s : Scene) : Scene :=
  let imageCount := length SAMPLE_IMAGES in
  let yPosition := 0 in
  let baseAngle := (inject_Z (Z.of_nat index) / inject_Z (Z.of_nat imageCount))
                     * Math_PI * 2 in
  let treePos :=
    mkVec3 (Math_cos baseAngle * hiddenRadius) yPosition
           (Math_sin baseAngle * hiddenRadius) in
  let sprite :=
    {| opacity := 0;
       position := mkVec3 (x treePos) (y treePos) (z treePos);
       scale := mkVec3 2 2 1;
       url := url;
       index := index;
       originalScale := 2;
       baseAngle := Some baseAngle;
       isSelected := false |} in
  set_imageSprites (imageSprites s ++ [sprite]) s.

(** First [forEach] of [updateImageVisibility]: every sprite is placed on
    its orbit, and the front-most one is tracked in
    [(maxZ, frontImageIndex)]. *)
Fixpoint orbitPass (treeRotation explodeProgress : Q) (currentState : DisplayState)
    (sprites : list Sprite) (i : nat) (maxZ : QInf) (frontImageIndex : nat)
    : list Sprite * (QInf * nat) :=
  match sprites with
  | [] => ([], (maxZ, frontImageIndex))
  | sprite :: rest =>
      match baseAngle sprite with
      | Some angle =>
          let currentAngle := angle + treeRotation in
          let t := easeInOutCubic explodeProgress in
          let currentRadius := lerp hiddenRadius orbitRadius t in
          let px := Math_cos currentAngle * currentRadius in
          let pz := Math_sin currentAngle * currentRadius in
          let sprite :=
            mkSprite (opacity sprite) (mkVec3 px 0 pz) (scale sprite)
              (url sprite) (index sprite) (originalScale sprite)
              (baseAngle sprite) (isSelected sprite) in
          let front :=
            if gtInf pz maxZ && DisplayState_eqb currentState exploded
            then (Fin pz, i)
            else (maxZ, frontImageIndex) in
          let r := orbitPass treeRotation explodeProgress currentState rest
                     (S i) (fst front) (snd front) in
          (sprite :: fst r, snd r)
      | None =>
          let r := orbitPass treeRotation explodeProgress currentState rest
                     (S i) maxZ frontImageIndex in
          (sprite :: fst r, snd r)
      end
  end.

(** Second [forEach]: opacity and scale ease towards their targets, and
    the selection flag is recomputed. *)
Fixpoint displayPass (explodeProgress : Q) (selectedImageIndex : Z)
    (currentState : DisplayState) (sprites : list Sprite) (i : nat)
    : list Sprite :=
  match sprites with
  | [] => []
  | sprite :: rest =>
      let sprite :=
        match baseAngle sprite with
        | Some _ =>
            let targetOpacity :=
              if Qltb 0.5 explodeProgress then explodeProgress else 0 in
            let isFront :=
              (Z.of_nat i =? selectedImageIndex)%Z
              && DisplayState_eqb currentState exploded in
            let baseScale :=
              originalScale sprite * (0.5 + explodeProgress * 0.5) in
            let frontBoost := if isFront then 1.5 else 1.0 in
            let targetScale := baseScale * frontBoost in
            let currentScale := x (scale sprite) in
            let newScale := lerp currentScale targetScale 0.15 in
            mkSprite (lerp (opacity sprite) targetOpacity 0.1)
              (position sprite) (mkVec3 newScale newScale 1)
              (url sprite) (index sprite) (originalScale sprite)
              (baseAngle sprite) isFront
        | None => sprite
        end in
      sprite :: displayPass explodeProgress selectedImageIndex currentState
                  rest (S i)
  end.

Definition updateImageVisibility (s : Scene) : Scene :=
  let explodeProgress := 1 - morphProgress s in
  let frontImageIndex := 0%nat in
  let maxZ := NegInfinity in
  let r := orbitPass (treeRotation s) explodeProgress (currentState s)
             (imageSprites s) 0 maxZ frontImageIndex in
  let s := set_imageSprites (fst r) s in
  let frontImageIndex := snd (snd r) in
  let s := if DisplayState_eqb (currentState s) exploded
           then set_selectedImageIndex (Z.of_nat frontImageIndex) s
           else s in
  set_imageSprites
    (displayPass explodeProgress (selectedImageIndex s) (currentState s)
       (imageSprites s) 0) s.

(** [hand] is the palm abscissa reported by the tracker when it is tracking
    and sees a hand, and [None] otherwise. *)
Definition updateRotation (hand : option Q) (s : Scene) : Scene :=
  let s :=
    match hand with
    | Some handPos_x =>
        let centerOffset := handPos_x - 0.5 in
        let rotationSpeed := centerOffset * 0.15 in
        set_targetRotation (targetRotation s + rotationSpeed) s
    | None =>
        if autoRotate CONFIG
        then set_targetRotation (targetRotation s + autoRotateSpeed CONFIG) s
        else s
    end in
  set_treeRotation (lerp (treeRotation s) (targetRotation s) 0.1) s.

(** The first step of a frame: the clock and the morph progress. *)
Definition advanceMorph (s : Scene) : Scene :=
  let s := set_time (time s + 0.016) s in
  match currentState s with
  | tree =>
      set_morphProgress (Qmin 1 (morphProgress s + transitionSpeed CONFIG)) s
  | exploded =>
      set_morphProgress (Qmax 0 (morphProgress s - transitionSpeed CONFIG)) s
  | zoomed => s
  end.

Definition animate (hand : option Q) (s : Scene) : option Scene :=
  let s := advanceMorph s in
  let? s := updateParticlePositions s in
  let s := updateImageVisibility s in
  Some (updateRotation hand s).

(** ** Events *)

(** Everything that runs a handler of the script.  [init] installs the
    gesture callback on one path and the keyboard listeners on another;
    the model lets all of them fire. *)
Inductive Event : Type :=
| GestureChange (gesture : Gesture)
| KeyDown (key : Key)
| KeyUp (key : Key)
| CloseZoomClick
| OverlayClick (onBackground : bool)
| TextureLoaded (index : nat)
| AnimationFrame (hand : option Q).

(** Whether the texture of image [i] has already produced its sprite. *)
Definition loaded (i : nat) (s : Scene) : bool :=
  existsb (fun sprite => (index sprite =? i)%nat) (imageSprites s).

(** One handler run.  [None] is an uncaught [TypeError].  A texture
    callback fires at most once per image of [SAMPLE_IMAGES]; any other
    [TextureLoaded] event does nothing. *)
Definition step (e : Event) (s : Scene) : option Scene :=
  match e with
  | GestureChange gesture => Some (handleGestureChange gesture s)
  | KeyDown key => Some (keydown key s)
  | KeyUp key => Some (keyup key s)
  | CloseZoomClick => Some (closeZoomClick s)
  | OverlayClick onBackground => Some (overlayClick onBackground s)
  | TextureLoaded i =>
      match SAMPLE_IMAGES !! i with
      | Some url => if loaded i s then Some s else Some (textureLoaded i url s)
      | None => Some s
      end
  | AnimationFrame hand => animate hand s
  end.

Fixpoint run (events : list Event) (s : Scene) : option Scene :=
  match events with
  | [] => Some s
  | e :: rest =>
      let? s := step e s in
      run rest s
  end.

(** The states the application can be in. *)
Definition reachable (treeGen explodedGen : nat -> Vec3) (s : Scene) : Prop :=
  exists events, run events (init treeGen explodedGen) = Some s.

End Animation.

End Main.

(** * Properties of the hand tracking module *)

Module HandTrackerFacts.

Import HandTracker.

Lemma Gesture_eqb_refl (a : Gesture) : Gesture_eqb a a = true.
Proof. destruct a; reflexivity. Qed.

Lemma Gesture_eqb_eq (a b : Gesture) : Gesture_eqb a b = true <-> a = b.
Proof. destruct a, b; simpl; split; congruence. Qed.

Lemma Gesture_eqb_neq (a b : Gesture) : Gesture_eqb a b = false <-> a <> b.
Proof. destruct a, b; simpl; split; congruence. Qed.

(** ** The classifier *)

(** A finger is extended when its tip is above its PIP joint in image
    space (smaller ordinate). *)
Definition fingerUp (lm : list Landmark) (tip pip : nat) : bool :=
  match lm !! tip, lm !! pip with
  | Some t, Some p => (y t <? y p)%float
  | _, _ => false
  end.

(** The thumb is extended when its tip is left of its IP joint. *)
Definition thumbOut (lm : list Landmark) : bool :=
  match lm !! 4%nat, lm !! 3%nat with
  | Some t, Some p => (x t <? x p)%float
  | _, _ => false
  end.

(** The thumb tip and the index tip touch. *)
Definition touching (lm : list Landmark) : bool :=
  match lm !! 4%nat, lm !! 8%nat with
  | Some t, Some i => (distance t i <? 0.08)%float
  | _, _ => false
  end.

(** A full frame always yields its five flags: thumb, index, middle, ring
    and pinky, in this order. *)
Lemma getFingersExtended_frame (lm : list Landmark) :
  length lm = 21%nat ->
  getFingersExtended lm =
    Some [thumbOut lm; fingerUp lm 8 6; fingerUp lm 12 10;
          fingerUp lm 16 14; fingerUp lm 20 18].
Proof.
  intros Hlen.
  do 21 (destruct lm as [|? lm]; [discriminate Hlen|]).
  destruct lm; [reflexivity | discriminate Hlen].
Qed.

Lemma isOKGesture_frame (lm : list Landmark) (fe : list bool) :
  length lm = 21%nat ->
  isOKGesture lm fe =
    Some (touching lm && (flag fe 2 && flag fe 3 && flag fe 4)).
Proof.
  intros Hlen.
  do 21 (destruct lm as [|? lm]; [discriminate Hlen|]).
  reflexivity.
Qed.

(** The classifier never fails on a full frame, and its answer is decided
    by the OK test first and by the number of extended fingers next. *)
Lemma detectGesture_frame (lm : list Landmark) :
  length lm = 21%nat ->
  exists fe isOK,
    getFingersExtended lm = Some fe /\
    isOKGesture lm fe = Some isOK /\
    detectGesture lm =
      Some (if isOK then ok
            else if (extendedCount fe <=? 1)%nat then fist
            else if (4 <=? extendedCount fe)%nat then open
            else none).
Proof.
  intros Hlen.
  eexists. eexists.
  split; [apply getFingersExtended_frame; exact Hlen|].
  split; [apply isOKGesture_frame; exact Hlen|].
  unfold detectGesture.
  rewrite (getFingersExtended_frame lm Hlen). cbn [bind].
  rewrite (isOKGesture_frame lm _ Hlen). cbn [bind].
  destruct (touching lm && _); [reflexivity|].
  destruct (extendedCount _ <=? 1)%nat; [reflexivity|].
  destruct (4 <=? extendedCount _)%nat; reflexivity.
Qed.

(** C1.  On every 21-point frame whose thumb tip (landmark 4) and index
    tip (landmark 8) are at Euclidean distance below 0.08 and whose middle,
    ring and pinky fingers are extended, [detectGesture] returns ['ok'];
    nothing is assumed about the thumb and index flags, nor about the
    number of extended fingers. *)
Theorem detectGesture_ok (lm : list Landmark) :
  length lm = 21%nat ->
  touching lm = true ->
  fingerUp lm 12 10 = true ->
  fingerUp lm 16 14 = true ->
  fingerUp lm 20 18 = true ->
  detectGesture lm = Some ok.
Proof.
  intros Hlen Htouch Hmiddle Hring Hpinky.
  destruct (detectGesture_frame lm Hlen) as (fe & isOK & Hfe & Hok & Hdet).
  rewrite Hdet.
  rewrite (getFingersExtended_frame lm Hlen) in Hfe.
  injection Hfe as <-.
  rewrite (isOKGesture_frame lm _ Hlen) in Hok.
  injection Hok as <-.
  unfold flag. simpl nth.
  rewrite Htouch, Hmiddle, Hring, Hpinky. reflexivity.
Qed.

Definition frame (pts : list (float * float)) : list Landmark :=
  map (fun p => mkLandmark (fst p) (snd p)) pts.

(** A hand making the OK sign: thumb and index tips 0.028 apart, both
    curled, the three other fingers up. *)
Definition okFrame : list Landmark :=
  frame [ (0.50, 0.90); (0.45, 0.80); (0.40, 0.70); (0.38, 0.52);
          (0.40, 0.50); (0.45, 0.60); (0.45, 0.45); (0.44, 0.48);
          (0.42, 0.52); (0.50, 0.60); (0.50, 0.40); (0.50, 0.30);
          (0.50, 0.20); (0.55, 0.60); (0.55, 0.40); (0.55, 0.30);
          (0.55, 0.22); (0.60, 0.62); (0.60, 0.42); (0.60, 0.33);
          (0.60, 0.25) ]%float.

Lemma detectGesture_ok_witness : detectGesture okFrame = Some ok.
Proof.
  apply (detectGesture_ok okFrame); vm_compute; reflexivity.
Defined.




(** ** The smoother *)

(** Number of occurrences of a label in a history. *)
Definition occurrences (g : Gesture) (h : list Gesture) : nat :=
  count_occ Gesture_eq_dec h g.

(** Position of the first occurrence of a label in a history (the length
    of the history when the label is absent). *)
Fixpoint firstIndex (g : Gesture) (h : list Gesture) : nat :=
  match h with
  | [] => 0
  | a :: rest => if Gesture_eqb a g then 0 else S (firstIndex g rest)
  end.

(** The smoothing rule in the words of the specification: [g] is present,
    no label is more frequent, and a label as frequent as [g] occurs for
    the first time after [g] does. *)
Definition majority (h : list Gesture) (g : Gesture) : Prop :=
  In g h /\
  (forall g', (occurrences g' h <= occurrences g h)%nat) /\
  (forall g', g' <> g -> occurrences g' h = occurrences g h ->
              (firstIndex g h < firstIndex g' h)%nat).

(** The distinct labels of a history, by first occurrence. *)
Definition addKey (keys : list Gesture) (g : Gesture) : list Gesture :=
  if in_dec Gesture_eq_dec g keys then keys else keys ++ [g].

Definition firsts (h : list Gesture) : list Gesture :=
  fold_left addKey h [].

(** The last [n] labels of a stream. *)
Definition lastN (n : nat) (h : list Gesture) : list Gesture :=
  skipn (length h - n) h.

Section FirstIndex.

Lemma firstIndex_le (g : Gesture) (h : list Gesture) :
  (firstIndex g h <= length h)%nat.
Proof.
  induction h as [|a h IH]; simpl; [lia|].
  destruct (Gesture_eqb a g); lia.
Qed.

Lemma firstIndex_lt (g : Gesture) (h : list Gesture) :
  (firstIndex g h < length h)%nat <-> In g h.
Proof.
  induction h as [|a h IH]; simpl; [split; [lia | tauto]|].
  destruct (Gesture_eqb a g) eqn:E.
  - apply Gesture_eqb_eq in E. split; [auto | lia].
  - apply Gesture_eqb_neq in E. rewrite <- IH. split; [intros; right|intros [?|?]]; try lia.
    congruence.
Qed.

Lemma firstIndex_app_in (g : Gesture) (h r : list Gesture) :
  In g h -> firstIndex g (h ++ r) = firstIndex g h.
Proof.
  induction h as [|a h IH]; simpl; [tauto|].
  intros Hin. destruct (Gesture_eqb a g) eqn:E; [reflexivity|].
  apply Gesture_eqb_neq in E. f_equal. apply IH. destruct Hin; congruence.
Qed.

Lemma firstIndex_app_absent (g : Gesture) (h r : list Gesture) :
  ~ In g h -> firstIndex g (h ++ r) = (length h + firstIndex g r)%nat.
Proof.
  induction h as [|a h IH]; simpl; [reflexivity|].
  intros Hn. destruct (Gesture_eqb a g) eqn:E.
  - apply Gesture_eqb_eq in E. exfalso. apply Hn. left. exact E.
  - f_equal. apply IH. tauto.
Qed.

Lemma firstIndex_inj (g g' : Gesture) (h : list Gesture) :
  In g h -> firstIndex g h = firstIndex g' h -> g = g'.
Proof.
  induction h as [|a h IH]; simpl; [tauto|].
  intros Hin.
  destruct (Gesture_eqb a g) eqn:E, (Gesture_eqb a g') eqn:E'; try discriminate.
  - apply Gesture_eqb_eq in E, E'. congruence.
  - apply Gesture_eqb_neq in E. intros Heq. apply IH; [|lia].
    destruct Hin; congruence.
Qed.

End FirstIndex.

Section Tally.

Lemma firsts_snoc (h : list Gesture) (a : Gesture) :
  firsts (h ++ [a]) = addKey (firsts h) a.
Proof. unfold firsts. rewrite fold_left_app. reflexivity. Qed.

Lemma tally_snoc (h : list Gesture) (a : Gesture) :
  tally (h ++ [a]) = bump a (tally h).
Proof. unfold tally. rewrite fold_left_app. reflexivity. Qed.

Lemma firsts_In (h : list Gesture) (g : Gesture) :
  In g (firsts h) <-> In g h.
Proof.
  induction h as [|a h IH] using rev_ind; [simpl; tauto|].
  rewrite firsts_snoc. unfold addKey.
  destruct (in_dec Gesture_eq_dec a (firsts h)) as [Ha|Ha];
    rewrite ?in_app_iff, IH; simpl; [|tauto].
  split; [tauto|]. intros [?|[<-|[]]]; [assumption|]. apply IH. exact Ha.
Qed.

Lemma firsts_NoDup (h : list Gesture) : List.NoDup (firsts h).
Proof.
  induction h as [|a h IH] using rev_ind; [constructor|].
  rewrite firsts_snoc. unfold addKey.
  destruct (in_dec Gesture_eq_dec a (firsts h)) as [Ha|Ha]; [exact IH|].
  apply List.NoDup_app.
  - exact IH.
  - constructor; [simpl; tauto | constructor].
  - intros k Hk [<-|[]]. contradiction.
Qed.

Lemma bump_keys (g : Gesture) (c : list (Gesture * nat)) :
  map fst (bump g c) = addKey (map fst c) g.
Proof.
  unfold addKey. induction c as [|[k n] c IH]; [reflexivity|].
  cbn [bump map fst].
  destruct (Gesture_eqb k g) eqn:E; cbn [map fst].
  - apply Gesture_eqb_eq in E. subst k.
    destruct (in_dec Gesture_eq_dec g (g :: map fst c)) as [_|Hn];
      [reflexivity | exfalso; apply Hn; left; reflexivity].
  - apply Gesture_eqb_neq in E. rewrite IH.
    destruct (in_dec Gesture_eq_dec g (map fst c)) as [Hi|Hi];
      destruct (in_dec Gesture_eq_dec g (k :: map fst c)) as [Hj|Hj];
      try reflexivity; exfalso.
    + apply Hj. right. exact Hi.
    + destruct Hj; [congruence | contradiction].
Qed.

(** The entries of [bump g c], when the keys of [c] are distinct. *)
Lemma bump_In (g : Gesture) (c : list (Gesture * nat)) (k : Gesture) (n : nat) :
  List.NoDup (map fst c) ->
  In (k, n) (bump g c) <->
    (k <> g /\ In (k, n) c) \/
    (k = g /\ ((exists n0, In (g, n0) c /\ n = S n0) \/
               (~ In g (map fst c) /\ n = 1%nat))).
Proof.
  induction c as [|[k1 n1] c IH]; simpl; intros Hnd.
  - split.
    + intros [H|[]]. injection H as <- <-. right. split; [reflexivity|].
      right. split; [tauto | reflexivity].
    + intros [[_ []]|[-> [[n0 [[] _]]|[_ ->]]]]. left. reflexivity.
  - inversion Hnd as [|? ? Hk1 Hnd']; subst.
    destruct (Gesture_eqb k1 g) eqn:E.
    + apply Gesture_eqb_eq in E. subst k1. simpl. split.
      * intros [H|H].
        -- injection H as <- <-. right. split; [reflexivity|]. left.
           exists n1. split; [left; reflexivity | reflexivity].
        -- left. split; [|right; exact H].
           intros ->. apply Hk1. apply (in_map fst) in H. exact H.
      * intros [[Hne [H|H]]|[-> [[n0 [[H|H] ->]]|[Hn _]]]].
        -- injection H as ? ?. congruence.
        -- right. exact H.
        -- injection H as ->. left. reflexivity.
        -- exfalso. apply Hk1. apply (in_map fst) in H. exact H.
        -- exfalso. apply Hn. left. reflexivity.
    + apply Gesture_eqb_neq in E. simpl. rewrite (IH Hnd'). split.
      * intros [H|[[Hne H]|[-> [[n0 [H ->]]|[Hn ->]]]]].
        -- injection H as <- <-. left. split; [exact E | left; reflexivity].
        -- left. split; [exact Hne | right; exact H].
        -- right. split; [reflexivity|]. left. exists n0.
           split; [right; exact H | reflexivity].
        -- right. split; [reflexivity|]. right. split; [|reflexivity].
           intros [?|?]; [congruence | contradiction].
      * intros [[Hne [H|H]]|[-> [[n0 [[H|H] ->]]|[Hn ->]]]].
        -- left. exact H.
        -- right. left. split; assumption.
        -- injection H as ? ?. congruence.
        -- right. right. split; [reflexivity|]. left. exists n0. split; [exact H | reflexivity].
        -- right. right. split; [reflexivity|]. right. split; [tauto | reflexivity].
Qed.

Lemma occurrences_snoc (g a : Gesture) (h : list Gesture) :
  occurrences g (h ++ [a]) =
    (occurrences g h + if Gesture_eqb a g then 1 else 0)%nat.
Proof.
  unfold occurrences. rewrite count_occ_app. simpl.
  destruct (Gesture_eq_dec a g) as [->|Hne].
  - rewrite Gesture_eqb_refl. reflexivity.
  - apply Gesture_eqb_neq in Hne. rewrite Hne. reflexivity.
Qed.

Lemma occurrences_In (g : Gesture) (h : list Gesture) :
  In g h <-> (0 < occurrences g h)%nat.
Proof. unfold occurrences. apply count_occ_In. Qed.

(** The tally: one entry per distinct label, in order of first occurrence,
    holding the number of occurrences. *)
Lemma tally_keys (h : list Gesture) : map fst (tally h) = firsts h.
Proof.
  induction h as [|a h IH] using rev_ind; [reflexivity|].
  rewrite tally_snoc, firsts_snoc, bump_keys, IH. reflexivity.
Qed.

Lemma tally_In (h : list Gesture) (g : Gesture) (n : nat) :
  In (g, n) (tally h) <-> In g h /\ n = occurrences g h.
Proof.
  revert g n. induction h as [|a h IH] using rev_ind; intros g n.
  - simpl. tauto.
  - rewrite tally_snoc, bump_In by (rewrite tally_keys; apply firsts_NoDup).
    rewrite tally_keys, firsts_In, in_app_iff, occurrences_snoc. simpl.
    destruct (Gesture_eqb a g) eqn:E.
    + apply Gesture_eqb_eq in E. subst a. split.
      * intros [[Hne _]|[_ [[n0 [H ->]]|[Hn ->]]]]; [congruence | |].
        -- apply IH in H. destruct H as [H ->]. split; [tauto | lia].
        -- split; [tauto|]. destruct (occurrences_In g h) as [_ H].
           destruct (occurrences g h); [reflexivity|].
           exfalso. apply Hn, H. lia.
      * intros [_ ->]. right. split; [reflexivity|].
        destruct (in_dec Gesture_eq_dec g h) as [Hi|Hi].
        -- left. exists (occurrences g h). split; [apply IH; tauto | lia].
        -- right. split; [exact Hi|].
           destruct (occurrences_In g h) as [_ H].
           destruct (occurrences g h); [reflexivity|].
           exfalso. apply Hi, H. lia.
    + apply Gesture_eqb_neq in E. rewrite IH. split.
      * intros [[Hne [H ->]]|[-> _]]; [|congruence]. split; [tauto | lia].
      * intros [[H|[H|[]]] ->]; [|congruence].
        left. split; [congruence|]. split; [exact H | lia].
Qed.

(** Labels come in the tally in the order of their first occurrences. *)
Lemma firsts_order (h : list Gesture) (k k' : Gesture) :
  In k h -> In k' h ->
  (firstIndex k (firsts h) < firstIndex k' (firsts h))%nat <->
  (firstIndex k h < firstIndex k' h)%nat.
Proof.
  revert k k'. induction h as [|a h IH] using rev_ind; intros k k'; [simpl; tauto|].
  rewrite firsts_snoc. unfold addKey.
  destruct (in_dec Gesture_eq_dec a (firsts h)) as [Ha|Ha].
  - rewrite firsts_In in Ha. intros Hk Hk'.
    assert (In k h) by (apply in_app_iff in Hk; destruct Hk as [?|[<-|[]]]; assumption).
    assert (In k' h) by (apply in_app_iff in Hk'; destruct Hk' as [?|[<-|[]]]; assumption).
    rewrite !firstIndex_app_in by assumption. apply IH; assumption.
  - assert (Hah : ~ In a h) by (rewrite <- firsts_In; exact Ha).
    assert (Hsnoc : forall l, ~ In a l ->
              firstIndex a (l ++ [a]) = length l).
    { intros l Hl. rewrite firstIndex_app_absent by exact Hl. simpl.
      rewrite Gesture_eqb_refl. lia. }
    intros Hk Hk'. apply in_app_iff in Hk, Hk'.
    destruct Hk as [Hk|[<-|[]]]; destruct Hk' as [Hk'|[<-|[]]].
    + rewrite !firstIndex_app_in
        by first [assumption | apply firsts_In; assumption].
      apply IH; assumption.
    + rewrite (firstIndex_app_in k) by (apply firsts_In; assumption).
      rewrite (firstIndex_app_in k h) by assumption.
      rewrite !Hsnoc by assumption.
      pose proof (proj2 (firstIndex_lt k h) Hk).
      pose proof (proj2 (firstIndex_lt k (firsts h)) (proj2 (firsts_In h k) Hk)).
      tauto.
    + rewrite (firstIndex_app_in k') by (apply firsts_In; assumption).
      rewrite (firstIndex_app_in k' h) by assumption.
      rewrite !Hsnoc by assumption.
      pose proof (proj2 (firstIndex_lt k' h) Hk').
      pose proof (proj2 (firstIndex_lt k' (firsts h)) (proj2 (firsts_In h k') Hk')).
      split; intros; lia.
    + split; intros; lia.
Qed.

End Tally.

Section Scan.

(** What the scan of the tally returns: either nothing beats the initial
    maximum, or the result is the first entry holding the greatest count. *)
Lemma scan_spec (l : list (Gesture * nat)) :
  List.NoDup (map fst l) ->
  forall (m0 : nat) (g0 : Gesture),
    (scan l (m0, g0) = (m0, g0) /\
     forall k c, In (k, c) l -> (c <= m0)%nat) \/
    (exists m g,
       scan l (m0, g0) = (m, g) /\
       (m0 < m)%nat /\ In (g, m) l /\
       (forall k c, In (k, c) l -> (c <= m)%nat) /\
       (forall k, In (k, m) l ->
                  (firstIndex g (map fst l) <= firstIndex k (map fst l))%nat)).
Proof.
  induction l as [|[k1 c1] l IH]; intros Hnd m0 g0.
  - left. split; [reflexivity | intros k c []].
  - inversion Hnd as [|? ? Hk1 Hnd']; subst.
    assert (Hkeys : forall k c, In (k, c) l -> k <> k1).
    { intros k c Hin ->. apply Hk1. apply (in_map fst) in Hin. exact Hin. }
    unfold scan. cbn [fold_left]. fold (scan l).
    destruct (Nat.ltb_spec m0 c1) as [Hlt|Hge].
    + right. destruct (IH Hnd' c1 k1) as [[Heq Hall]|(m & g & Heq & Hm & Hin & Hall & Hfirst)].
      * exists c1, k1. split; [exact Heq|]. split; [exact Hlt|].
        split; [left; reflexivity|]. split.
        -- intros k c [H|H]; [injection H as <- <-; lia | eauto].
        -- intros k _. cbn [map fst firstIndex].
           rewrite Gesture_eqb_refl. lia.
      * exists m, g. split; [exact Heq|]. split; [lia|].
        split; [right; exact Hin|]. split.
        -- intros k c [H|H]; [injection H as <- <-; lia | eauto].
        -- intros k [H|H]; [injection H as <- <-; lia|].
           cbn [map fst firstIndex].
           destruct (Gesture_eqb k1 g); [lia|].
           pose proof (Hkeys k m H) as Hne.
           apply not_eq_sym, Gesture_eqb_neq in Hne. rewrite Hne.
           specialize (Hfirst k H). lia.
    + destruct (IH Hnd' m0 g0) as [[Heq Hall]|(m & g & Heq & Hm & Hin & Hall & Hfirst)].
      * left. split; [exact Heq|].
        intros k c [H|H]; [injection H as <- <-; lia | eauto].
      * right. exists m, g. split; [exact Heq|]. split; [exact Hm|].
        split; [right; exact Hin|]. split.
        -- intros k c [H|H]; [injection H as <- <-; lia | eauto].
        -- intros k [H|H]; [injection H as <- <-; lia|].
           cbn [map fst firstIndex].
           destruct (Gesture_eqb k1 g); [lia|].
           pose proof (Hkeys k m H) as Hne.
           apply not_eq_sym, Gesture_eqb_neq in Hne. rewrite Hne.
           specialize (Hfirst k H). lia.
Qed.

(** The smoothed label of a non-empty history obeys the rule. *)
Lemma smoothed_majority (h : list Gesture) :
  h <> [] -> majority h (smoothed h).
Proof.
  intros Hne. unfold smoothed.
  assert (Hnd : List.NoDup (map fst (tally h)))
    by (rewrite tally_keys; apply firsts_NoDup).
  destruct (scan_spec (tally h) Hnd 0 none)
    as [[_ Hall]|(m & g & -> & Hm & Hin & Hall & Hfirst)].
  - exfalso. destruct h as [|a h]; [congruence|].
    assert (Ha : In a (a :: h)) by (left; reflexivity).
    pose proof (proj1 (occurrences_In a (a :: h)) Ha) as Hpos.
    specialize (Hall a (occurrences a (a :: h))).
    rewrite tally_In in Hall. specialize (Hall (conj Ha eq_refl)). lia.
  - cbn [snd]. apply tally_In in Hin. destruct Hin as [Hg ->].
    split; [exact Hg|]. split.
    + intros g'. destruct (in_dec Gesture_eq_dec g' h) as [Hi|Hi].
      * apply (Hall g'). apply tally_In. tauto.
      * destruct (occurrences_In g' h) as [_ H].
        destruct (occurrences g' h); [lia|]. exfalso. apply Hi, H. lia.
    + intros g' Hdiff Heq.
      assert (Hg' : In g' h) by (apply occurrences_In; lia).
      apply firsts_order; [assumption | assumption|].
      assert (Hle : (firstIndex g (firsts h) <= firstIndex g' (firsts h))%nat).
      { rewrite <- tally_keys. apply Hfirst. apply tally_In. split; [exact Hg' | congruence]. }
      destruct (Nat.eq_dec (firstIndex g (firsts h)) (firstIndex g' (firsts h))) as [E|E]; [|lia].
      exfalso. apply Hdiff. symmetry.
      apply (firstIndex_inj g g' (firsts h)); [apply firsts_In; exact Hg | exact E].
Qed.

(** The rule determines the label. *)
Lemma majority_unique (h : list Gesture) (g1 g2 : Gesture) :
  majority h g1 -> majority h g2 -> g1 = g2.
Proof.
  intros (_ & Hmax1 & Htie1) (_ & Hmax2 & Htie2).
  destruct (Gesture_eq_dec g1 g2) as [E|E]; [exact E|exfalso].
  assert (Heq : occurrences g1 h = occurrences g2 h).
  { pose proof (Hmax1 g2). pose proof (Hmax2 g1). lia. }
  pose proof (Htie1 g2 (not_eq_sym E) (eq_sym Heq)).
  pose proof (Htie2 g1 E Heq). lia.
Qed.

End Scan.

(** ** The smoother on a stream of labels *)

(** The tracker once the main script has installed its callback. *)
Definition listening : Tracker :=
  {| currentGesture := currentGesture constructor;
     landmarks := landmarks constructor;
     onGestureChange := true;
     gestureHistory := gestureHistory constructor;
     historySize := historySize constructor |}.

(** The label of the last change event, ['none'] before the first one (the
    initial [currentGesture]). *)
Definition lastEmitted (events : list Gesture) : Gesture :=
  List.last events none.

Section Stream.

Lemma feed_snoc (raws : list Gesture) (r : Gesture) (t : Tracker) :
  feed (raws ++ [r]) t =
    (fst (updateGesture r (fst (feed raws t))),
     snd (feed raws t) ++
       match snd (updateGesture r (fst (feed raws t))) with
       | Some l => [l]
       | None => []
       end).
Proof.
  revert t. induction raws as [|a raws IH]; intros t; cbn [feed app fst snd].
  - destruct (updateGesture r t) as [t1 [l|]]; reflexivity.
  - destruct (updateGesture a t) as [t1 e]. rewrite IH.
    destruct (feed raws t1) as [t2 es]. cbn [fst snd].
    destruct e; reflexivity.
Qed.

Lemma pushHistory_lastN (raws : list Gesture) (r : Gesture) :
  pushHistory (lastN 5 raws) 5 r = lastN 5 (raws ++ [r]).
Proof.
  unfold pushHistory, lastN.
  rewrite length_app, length_app, length_skipn. cbn [length].
  destruct (Nat.ltb_spec 5 (length raws - (length raws - 5) + 1)) as [H|H].
  - replace (length raws + 1 - 5)%nat with (1 + (length raws - 5))%nat by lia.
    rewrite <- skipn_skipn, skipn_app.
    replace (length raws - 5 - length raws)%nat with 0%nat by lia.
    reflexivity.
  - replace (length raws - 5)%nat with 0%nat by lia.
    replace (length raws + 1 - 5)%nat with 0%nat by lia.
    reflexivity.
Qed.

Lemma last_snoc (es : list Gesture) (l d : Gesture) :
  List.last (es ++ [l]) d = l.
Proof. apply List.last_last. Qed.

(** What the tracker holds after any stream of raw labels. *)
Lemma feed_invariant (raws : list Gesture) :
  gestureHistory (fst (feed raws listening)) = lastN 5 raws /\
  historySize (fst (feed raws listening)) = 5%nat /\
  onGestureChange (fst (feed raws listening)) = true /\
  currentGesture (fst (feed raws listening)) =
    lastEmitted (snd (feed raws listening)).
Proof.
  induction raws as [|r raws IH] using rev_ind.
  - repeat split.
  - destruct IH as (Hh & Hs & Hc & Hg).
    rewrite feed_snoc. cbn [fst snd].
    set (t := fst (feed raws listening)) in *.
    unfold updateGesture. rewrite Hh, Hs, Hc, pushHistory_lastN.
    destruct (Gesture_eqb (smoothed (lastN 5 (raws ++ [r]))) (currentGesture t)) eqn:E;
      cbn [negb fst snd gestureHistory historySize onGestureChange currentGesture].
    + rewrite app_nil_r. repeat split; assumption.
    + unfold lastEmitted. rewrite last_snoc. repeat split.
Qed.

End Stream.

(** C5.  For every stream of raw labels fed to a listening tracker and
    every new label: the history becomes the last five labels; the
    smoothed label is the most frequent label of that history, ties going
    to the label that occurs first in it, and it is the only label with
    that property; a change event is emitted exactly when the smoothed
    label differs from the label of the previous event (['none'] before
    any event), and then carries the smoothed label.  The raw window
    fist, fist, open, fist, fist smooths to ['fist'], with a single event. *)
Theorem updateGesture_smooths (raws : list Gesture) (r : Gesture) :
  let t := fst (feed raws listening) in
  let previous := lastEmitted (snd (feed raws listening)) in
  let window := lastN 5 (raws ++ [r]) in
  gestureHistory (fst (updateGesture r t)) = window /\
  currentGesture (fst (updateGesture r t)) = smoothed window /\
  majority window (smoothed window) /\
  (forall g, majority window g -> g = smoothed window) /\
  snd (updateGesture r t) =
    (if Gesture_eqb (smoothed window) previous then None
     else Some (smoothed window)) /\
  smoothed [fist; fist; open; fist; fist] = fist /\
  snd (feed [fist; fist; open; fist; fist] listening) = [fist].
Proof.
  intros t previous window.
  destruct (feed_invariant raws) as (Hh & Hs & Hc & Hg).
  fold t in Hh, Hs, Hc, Hg. fold previous in Hg.
  assert (Hwin : window <> []).
  { unfold window, lastN. intros Hnil.
    apply (f_equal (@length Gesture)) in Hnil.
    rewrite length_skipn, length_app in Hnil. cbn [length] in Hnil. lia. }
  assert (Hmaj : majority window (smoothed window))
    by (apply smoothed_majority; exact Hwin).
  unfold updateGesture. rewrite Hh, Hs, Hc, Hg, pushHistory_lastN.
  fold window.
  destruct (Gesture_eqb (smoothed window) previous) eqn:E;
    cbn [negb fst snd gestureHistory currentGesture].
  - apply Gesture_eqb_eq in E.
    repeat split; try reflexivity; try apply Hmaj; try congruence.
    intros g Hgm. apply (majority_unique window); assumption.
  - repeat split; try reflexivity; try apply Hmaj.
    intros g Hgm. apply (majority_unique window); assumption.
Qed.

End HandTrackerFacts.

(** * Properties of the main application *)

Module MainFacts.

Import HandTracker(Gesture, none, fist, open, ok).
Import Main.

Open Scope Q_scope.

(** ** Numbers *)

Lemma Qltb_lt (a b : Q) : Qltb a b = true <-> a < b.
Proof.
  unfold Qltb. rewrite Qlt_alt.
  destruct (a ?= b); split; congruence.
Qed.





Lemma DisplayState_eqb_neq (a b : DisplayState) :
  DisplayState_eqb a b = false <-> a <> b.
Proof. destruct a, b; simpl; split; congruence. Qed.

(** ** Particles *)

(** The blend of a particle's two endpoints at a given morph progress. *)
Definition morphed (exploded tree : Vec3) (morphProgress : Q) : Vec3 :=
  {| x := lerp (x exploded) (x tree) (easeInOutCubic morphProgress);
     y := lerp (y exploded) (y tree) (easeInOutCubic morphProgress);
     z := lerp (z exploded) (z tree) (easeInOutCubic morphProgress) |}.

(** The three particle arrays run in step, and the position buffer holds
    three numbers per particle. *)
Definition aligned (s : Scene) : Prop :=
  length (treePositions s) = length (currentPositions s) /\
  length (originalPositions s) = length (currentPositions s) /\
  length (positions s) = (length (currentPositions s) * 3)%nat.

Section Particles.

Lemma particleLoop_spec (mp : Q) (tp op : list Vec3) (n : nat) :
  forall (a : nat) (cur : list Vec3) (pos : list Q),
    (a + n <= length tp)%nat ->
    (a + n <= length op)%nat ->
    (a + n <= length cur)%nat ->
    ((a + n) * 3 <= length pos)%nat ->
    exists cur' pos',
      particleLoop mp tp op (seq a n) cur pos = Some (cur', pos') /\
      length cur' = length cur /\
      length pos' = length pos /\
      (forall i, (i < a)%nat -> cur' !! i = cur !! i) /\
      (forall j, (j < a * 3)%nat -> pos' !! j = pos !! j) /\
      (forall i tree exploded,
         (a <= i < a + n)%nat ->
         tp !! i = Some tree ->
         op !! i = Some exploded ->
         cur' !! i = Some (morphed exploded tree mp) /\
         pos' !! (i * 3)%nat = Some (x (morphed exploded tree mp)) /\
         pos' !! (i * 3 + 1)%nat = Some (y (morphed exploded tree mp)) /\
         pos' !! (i * 3 + 2)%nat = Some (z (morphed exploded tree mp))).
Proof.
  induction n as [|n IH]; intros a cur pos Htp Hop Hcur Hpos.
  - exists cur, pos. cbn [seq particleLoop].
    repeat split; try reflexivity. all: intros; lia.
  - cbn [seq particleLoop].
    destruct (lookup_lt_is_Some_2 tp a ltac:(lia)) as [tree Htree].
    destruct (lookup_lt_is_Some_2 op a ltac:(lia)) as [exploded Hexploded].
    rewrite Htree, Hexploded. cbn [bind].
    fold (morphed exploded tree mp).
    set (c := morphed exploded tree mp).
    set (cur1 := <[a := c]> cur).
    set (pos1 := <[(a * 3 + 2)%nat := z c]>
                   (<[(a * 3 + 1)%nat := y c]> (<[(a * 3)%nat := x c]> pos))).
    assert (Hlc : length cur1 = length cur) by (unfold cur1; apply length_insert).
    assert (Hlp : length pos1 = length pos)
      by (unfold pos1; rewrite !length_insert; reflexivity).
    destruct (IH (S a) cur1 pos1) as (cur' & pos' & Hrun & Hc' & Hp' & Hkc & Hkp & Hnew);
      try lia.
    exists cur', pos'. split; [exact Hrun|].
    split; [lia|]. split; [lia|].
    assert (Ha : cur1 !! a = Some c)
      by (unfold cur1; apply list_lookup_insert_eq; lia).
    assert (Hx : pos1 !! (a * 3)%nat = Some (x c)).
    { unfold pos1. rewrite !list_lookup_insert_ne by lia.
      apply list_lookup_insert_eq. lia. }
    assert (Hy : pos1 !! (a * 3 + 1)%nat = Some (y c)).
    { unfold pos1. rewrite list_lookup_insert_ne by lia.
      apply list_lookup_insert_eq. rewrite length_insert. lia. }
    assert (Hz : pos1 !! (a * 3 + 2)%nat = Some (z c)).
    { unfold pos1. apply list_lookup_insert_eq. rewrite !length_insert. lia. }
    split; [|split].
    + intros i Hi. rewrite Hkc by lia. unfold cur1.
      apply list_lookup_insert_ne. lia.
    + intros j Hj. rewrite Hkp by lia. unfold pos1.
      rewrite !list_lookup_insert_ne by lia. reflexivity.
    + intros i tree' exploded' Hi Ht He.
      destruct (Nat.eq_dec i a) as [->|Hne].
      * assert (tree' = tree) by congruence.
        assert (exploded' = exploded) by congruence. subst tree' exploded'.
        rewrite Hkc, !Hkp by lia. repeat split; assumption.
      * apply Hnew; [lia | assumption | assumption].
Qed.

(** On an aligned scene the particle update cannot fail; it touches the
    current positions and the buffer only, and every particle ends at the
    blend of its endpoints. *)
Lemma updateParticlePositions_spec (s : Scene) :
  aligned s ->
  exists cur' pos',
    updateParticlePositions s =
      Some (set_positions pos' (set_currentPositions cur' s)) /\
    length cur' = length (currentPositions s) /\
    length pos' = length (positions s) /\
    (forall i tree exploded,
       treePositions s !! i = Some tree ->
       originalPositions s !! i = Some exploded ->
       cur' !! i = Some (morphed exploded tree (morphProgress s)) /\
       pos' !! (i * 3)%nat = Some (x (morphed exploded tree (morphProgress s))) /\
       pos' !! (i * 3 + 1)%nat = Some (y (morphed exploded tree (morphProgress s))) /\
       pos' !! (i * 3 + 2)%nat = Some (z (morphed exploded tree (morphProgress s)))).
Proof.
  intros (Ht & Ho & Hp).
  destruct (particleLoop_spec (morphProgress s) (treePositions s)
              (originalPositions s) (length (currentPositions s)) 0
              (currentPositions s) (positions s))
    as (cur' & pos' & Hrun & Hc' & Hp' & _ & _ & Hnew); try lia.
  exists cur', pos'. unfold updateParticlePositions. rewrite Hrun.
  split; [reflexivity|]. split; [exact Hc'|]. split; [exact Hp'|].
  intros i tree exploded Htree Hexploded. apply Hnew; try assumption.
  apply lookup_lt_Some in Htree. lia.
Qed.

End Particles.

(** ** Particles and the rest of the scene *)

(** The scene without its particles. *)
Definition strip (s : Scene) : Scene :=
  set_positions [] (set_originalPositions [] (set_treePositions []
    (set_currentPositions [] s))).

(** The particle part of a scene. *)
Definition particlesOf (s : Scene)
    : list Vec3 * list Vec3 * list Vec3 * list Q :=
  (treePositions s, originalPositions s, currentPositions s, positions s).

(** Case analysis on every test a handler makes. *)
Ltac handler_cases :=
  repeat match goal with
         | |- context [match ?c with _ => _ end] => destruct c eqn:?
         end.

Section Frame.

Lemma strip_handleGestureChange (g : Gesture) (s : Scene) :
  strip (handleGestureChange g s) = handleGestureChange g (strip s).
Proof.
  destruct s, g; unfold handleGestureChange, zoomToNearestImage, bestImage,
    enterZoom, unzoomImage, updateGestureUI, strip; cbn;
    handler_cases; reflexivity.
Qed.

Lemma particlesOf_handleGestureChange (g : Gesture) (s : Scene) :
  particlesOf (handleGestureChange g s) = particlesOf s.
Proof.
  destruct s, g; unfold handleGestureChange, zoomToNearestImage, bestImage,
    enterZoom, unzoomImage, updateGestureUI, particlesOf; cbn;
    handler_cases; reflexivity.
Qed.

Lemma strip_keydown (k : Key) (s : Scene) :
  strip (keydown k s) = keydown k (strip s).
Proof.
  destruct s, k; unfold keydown, zoomSelectedImage,
    enterZoom, unzoomImage, updateGestureUI, strip; cbn;
    handler_cases; reflexivity.
Qed.

Lemma particlesOf_keydown (k : Key) (s : Scene) :
  particlesOf (keydown k s) = particlesOf s.
Proof.
  destruct s, k; unfold keydown, zoomSelectedImage,
    enterZoom, unzoomImage, updateGestureUI, particlesOf; cbn;
    handler_cases; reflexivity.
Qed.

Lemma strip_keyup (k : Key) (s : Scene) :
  strip (keyup k s) = keyup k (strip s).
Proof.
  destruct s, k; unfold keyup, unzoomImage, updateGestureUI, strip; cbn;
    handler_cases; reflexivity.
Qed.

Lemma particlesOf_keyup (k : Key) (s : Scene) :
  particlesOf (keyup k s) = particlesOf s.
Proof.
  destruct s, k; unfold keyup, unzoomImage, updateGestureUI, particlesOf; cbn;
    handler_cases; reflexivity.
Qed.

Lemma strip_advanceMorph (s : Scene) :
  strip (advanceMorph s) = advanceMorph (strip s).
Proof. destruct s as [? ? ? ? ? ? [] ? ? ? ? ? ? ? ? ?]; reflexivity. Qed.

Lemma particlesOf_advanceMorph (s : Scene) :
  particlesOf (advanceMorph s) = particlesOf s.
Proof. destruct s as [? ? ? ? ? ? [] ? ? ? ? ? ? ? ? ?]; reflexivity. Qed.

End Frame.

Section Steps.

Variables (Math_sin Math_cos : Q -> Q).

Notation animate := (animate Math_sin Math_cos).
Notation step := (step Math_sin Math_cos).
Notation run := (run Math_sin Math_cos).
Notation updateImageVisibility := (updateImageVisibility Math_sin Math_cos).

Lemma updateParticlePositions_shape (s s' : Scene) :
  updateParticlePositions s = Some s' ->
  exists cur pos, s' = set_positions pos (set_currentPositions cur s).
Proof.
  unfold updateParticlePositions.
  destruct (particleLoop _ _ _ _ _ _) as [[cur pos]|]; [|discriminate].
  intros H. injection H as <-. exists cur, pos. reflexivity.
Qed.

(** A frame is: the morph step, the particle update, the orbit update, the
    rotation update. *)
Lemma animate_shape (hand : option Q) (s s' : Scene) :
  animate hand s = Some s' ->
  exists cur pos,
    s' = updateRotation hand (updateImageVisibility
           (set_positions pos (set_currentPositions cur (advanceMorph s)))).
Proof.
  unfold Main.animate.
  destruct (updateParticlePositions (advanceMorph s)) as [s2|] eqn:E;
    [|discriminate].
  intros H. injection H as <-.
  destruct (updateParticlePositions_shape _ _ E) as (cur & pos & ->).
  exists cur, pos. reflexivity.
Qed.

(** A frame leaves the display state and the saved state alone, and moves
    the morph progress as [advanceMorph] does. *)
Lemma animate_control (hand : option Q) (s s' : Scene) :
  animate hand s = Some s' ->
  currentState s' = currentState s /\
  previousState s' = previousState s /\
  morphProgress s' = morphProgress (advanceMorph s).
Proof.
  intros H. destruct (animate_shape _ _ _ H) as (cur & pos & ->).
  destruct s as [? ? ? ? ? ? [] ? ? ? ? ? ? ? ? ?], hand;
    repeat split; reflexivity.
Qed.

(** On an aligned scene a frame cannot fail; the endpoints stay, the scene
    stays aligned, and the rest of the scene evolves as if there were no
    particles. *)
Lemma animate_aligned (hand : option Q) (s : Scene) :
  aligned s ->
  exists s',
    animate hand s = Some s' /\
    animate hand (strip s) = Some (strip s') /\
    aligned s' /\
    treePositions s' = treePositions s /\
    originalPositions s' = originalPositions s.
Proof.
  intros Hal.
  assert (Hal1 : aligned (advanceMorph s)).
  { unfold aligned in *. pose proof (particlesOf_advanceMorph s) as E.
    unfold particlesOf in E. injection E as -> -> -> ->. exact Hal. }
  destruct (updateParticlePositions_spec _ Hal1) as (cur & pos & Hrun & Hc & Hp & _).
  unfold Main.animate. rewrite Hrun. cbn [bind].
  eexists. split; [reflexivity|].
  rewrite <- strip_advanceMorph.
  pose proof (particlesOf_advanceMorph s) as E.
  unfold particlesOf in E. injection E as Et Eo Ec Ep.
  unfold aligned in Hal. rewrite <- Et, <- Eo, <- Ec, <- Ep in Hal.
  rewrite <- Et, <- Eo. clear Et Eo Ec Ep Hrun Hal1.
  destruct (advanceMorph s). cbn in *.
  unfold Main.updateImageVisibility. cbn.
  repeat split; try tauto; try lia.
  - destruct hand; handler_cases; reflexivity.
  - destruct hand; handler_cases; cbn; lia.
  - destruct hand; handler_cases; cbn; lia.
  - destruct hand; handler_cases; cbn; lia.
  - destruct hand; handler_cases; reflexivity.
  - destruct hand; handler_cases; reflexivity.
Qed.

Lemma strip_other (e : Event) (s : Scene) :
  (forall hand, e <> AnimationFrame hand) ->
  exists s',
    step e s = Some s' /\
    step e (strip s) = Some (strip s') /\
    particlesOf s' = particlesOf s.
Proof.
  intros Hne. destruct e as [g|k|k| |b|i|hand]; cbn [Main.step].
  - eexists. rewrite <- strip_handleGestureChange.
    split; [reflexivity|]. split; [reflexivity|].
    apply particlesOf_handleGestureChange.
  - eexists. rewrite <- strip_keydown.
    split; [reflexivity|]. split; [reflexivity|]. apply particlesOf_keydown.
  - eexists. rewrite <- strip_keyup.
    split; [reflexivity|]. split; [reflexivity|]. apply particlesOf_keyup.
  - eexists. split; [reflexivity|]. destruct s. split; reflexivity.
  - eexists. split; [reflexivity|]. destruct s, b. all: split; reflexivity.
  - destruct (SAMPLE_IMAGES !! i) as [u|]; [|eexists; repeat split].
    replace (loaded i (strip s)) with (loaded i s) by (destruct s; reflexivity).
    destruct (loaded i s); eexists; (split; [reflexivity|]);
      destruct s; split; reflexivity.
  - exfalso. apply (Hne hand). reflexivity.
Qed.

(** Every handler runs to completion on an aligned scene and keeps it
    aligned; the endpoints of the particles never change; and the rest of
    the scene evolves as if there were no particles. *)
Lemma step_aligned (e : Event) (s : Scene) :
  aligned s ->
  exists s',
    step e s = Some s' /\
    step e (strip s) = Some (strip s') /\
    aligned s' /\
    treePositions s' = treePositions s /\
    originalPositions s' = originalPositions s.
Proof.
  intros Hal. destruct e as [g|k|k| |b|i|hand].
  7: exact (animate_aligned hand s Hal).
  all: match goal with
       | |- context [Main.step _ _ ?e _] =>
           destruct (strip_other e s ltac:(discriminate)) as (s' & H1 & H2 & H3)
       end;
    exists s'; split; [exact H1|]; split; [exact H2|];
    unfold particlesOf in H3; injection H3 as Et Eo Ec Ep;
    unfold aligned in *; rewrite Et, Eo, Ec, Ep; tauto.
Qed.

Lemma run_aligned (events : list Event) (s : Scene) :
  aligned s ->
  exists s',
    run events s = Some s' /\
    run events (strip s) = Some (strip s') /\
    aligned s' /\
    treePositions s' = treePositions s /\
    originalPositions s' = originalPositions s.
Proof.
  revert s. induction events as [|e events IH]; intros s Hal.
  - exists s. repeat split; try reflexivity; apply Hal.
  - destruct (step_aligned e s Hal) as (s1 & H1 & H2 & Hal1 & Et & Eo).
    destruct (IH s1 Hal1) as (s' & H1' & H2' & Hal' & Et' & Eo').
    exists s'. cbn [Main.run]. rewrite H1, H2. cbn [bind].
    repeat split; try assumption; try apply Hal'; congruence.
Qed.

Lemma run_app (events1 events2 : list Event) (s : Scene) :
  run (events1 ++ events2) s =
    bind (run events1 s) (run events2).
Proof.
  revert s. induction events1 as [|e events1 IH]; intros s; [reflexivity|].
  cbn [app Main.run]. destruct (step e s) as [s1|]; [apply IH | reflexivity].
Qed.

End Steps.

(** ** Setup *)

Section Setup.

Variables (treeGen explodedGen : nat -> Vec3).

Lemma setupParticlesLoop_spec (n : nat) :
  forall (i : nat) (s : Scene),
    strip (setupParticlesLoop treeGen explodedGen i n s) = strip s /\
    treePositions (setupParticlesLoop treeGen explodedGen i n s) =
      treePositions s ++ map treeGen (seq i n) /\
    originalPositions (setupParticlesLoop treeGen explodedGen i n s) =
      originalPositions s ++ map explodedGen (seq i n) /\
    length (currentPositions (setupParticlesLoop treeGen explodedGen i n s)) =
      (length (currentPositions s) + n)%nat /\
    length (positions (setupParticlesLoop treeGen explodedGen i n s)) =
      length (positions s).
Proof.
  induction n as [|n IH]; intros i s; cbn [setupParticlesLoop seq map].
  - rewrite !app_nil_r. repeat split. lia.
  - match goal with
    | |- context [setupParticlesLoop _ _ (S i) n ?s1] =>
        destruct (IH (S i) s1) as (H1 & H2 & H3 & H4 & H5)
    end.
    rewrite H1, H2, H3, H4, H5. destruct s. cbn.
    rewrite <- !app_assoc, !length_app, !length_insert. cbn.
    repeat split. lia.
Qed.

Lemma strip_set_positions (p : list Q) (s : Scene) :
  strip (set_positions p s) = strip s.
Proof. destruct s; reflexivity. Qed.

Lemma setupParticles_spec (count : nat) (s : Scene) :
  treePositions s = [] -> originalPositions s = [] -> currentPositions s = [] ->
  strip (setupParticles treeGen explodedGen count s) = strip s /\
  treePositions (setupParticles treeGen explodedGen count s) =
    map treeGen (seq 0 count) /\
  originalPositions (setupParticles treeGen explodedGen count s) =
    map explodedGen (seq 0 count) /\
  length (currentPositions (setupParticles treeGen explodedGen count s)) = count /\
  length (positions (setupParticles treeGen explodedGen count s)) =
    (count * 3)%nat.
Proof.
  intros Ht Ho Hc. unfold setupParticles.
  destruct (setupParticlesLoop_spec count 0
              (set_positions (repeat 0 (count * 3)) s))
    as (H1 & H2 & H3 & H4 & H5).
  rewrite H1, H2, H3, H4, H5, strip_set_positions.
  destruct s. cbn in *. subst. cbn. rewrite repeat_length.
  repeat split.
Qed.

(** The scene after [init]: the globals as declared, plus
    [CONFIG.particleCount] particles with their two endpoints. *)
Lemma init_spec :
  strip (init treeGen explodedGen) = globals /\
  aligned (init treeGen explodedGen) /\
  treePositions (init treeGen explodedGen) =
    map treeGen (seq 0 (particleCount CONFIG)) /\
  originalPositions (init treeGen explodedGen) =
    map explodedGen (seq 0 (particleCount CONFIG)).
Proof.
  unfold init.
  destruct (setupParticles_spec (particleCount CONFIG) globals
              eq_refl eq_refl eq_refl) as (H1 & H2 & H3 & H4 & H5).
  split; [rewrite H1; reflexivity|].
  split; [|split; assumption].
  unfold aligned. rewrite H2, H3, H4, H5, !length_map, !length_seq.
  repeat split.
Qed.

End Setup.

(** ** The morph progress *)

Section Morph.

Variables (Math_sin Math_cos : Q -> Q).

Notation animate := (animate Math_sin Math_cos).
Notation step := (step Math_sin Math_cos).
Notation run := (run Math_sin Math_cos).

(** The law of one tick. *)
Definition tick (currentState : DisplayState) (morphProgress : Q) : Q :=
  match currentState with
  | tree => Qmin 1 (morphProgress + transitionSpeed CONFIG)
  | exploded => Qmax 0 (morphProgress - transitionSpeed CONFIG)
  | zoomed => morphProgress
  end.

Lemma advanceMorph_tick (s : Scene) :
  morphProgress (advanceMorph s) = tick (currentState s) (morphProgress s).
Proof. destruct s as [? ? ? ? ? ? [] ? ? ? ? ? ? ? ? ?]; reflexivity. Qed.

Lemma tick_range (c : DisplayState) (m : Q) :
  0 <= m <= 1 -> 0 <= tick c m <= 1.
Proof.
  intros [H0 H1]. destruct c; cbn [tick transitionSpeed CONFIG].
  - destruct (Q.min_spec 1 (m + 0.06)) as [[Hlt ->]|[Hle ->]]; lra.
  - destruct (Q.max_spec 0 (m - 0.06)) as [[Hlt ->]|[Hle ->]]; lra.
  - lra.
Qed.

(** Only a frame moves the morph progress. *)
Lemma step_morphProgress (e : Event) (s s' : Scene) :
  step e s = Some s' ->
  morphProgress s' =
    match e with
    | AnimationFrame _ => tick (currentState s) (morphProgress s)
    | _ => morphProgress s
    end.
Proof.
  destruct e as [g|k|k| |b|i|hand]; cbn [Main.step].
  7: { intros H. apply animate_control in H.
       destruct H as (_ & _ & ->). apply advanceMorph_tick. }
  6: { destruct (SAMPLE_IMAGES !! i); [destruct (loaded i s)|];
         intros H; injection H as <-; reflexivity. }
  all: intros H; injection H as <-.
  - destruct s, g; unfold handleGestureChange, zoomToNearestImage, bestImage,
      enterZoom, unzoomImage, updateGestureUI; cbn; handler_cases; reflexivity.
  - destruct s, k; unfold keydown, zoomSelectedImage,
      enterZoom, unzoomImage, updateGestureUI; cbn; handler_cases; reflexivity.
  - destruct s, k; unfold keyup, unzoomImage, updateGestureUI; cbn;
      handler_cases; reflexivity.
  - reflexivity.
  - destruct b; reflexivity.
Qed.

(** C3.  From any aligned scene whose morph progress lies in [0,1], every
    sequence of events runs to completion and leaves the morph progress in
    [0,1]; and one more frame, which always completes, leaves it in [0,1]
    and changes it as follows: in state ['tree'] the step
    [CONFIG.transitionSpeed] is added and the result capped at 1, in state
    ['exploded'] the step is subtracted and the result floored at 0, in
    state ['zoomed'] nothing changes. *)
Theorem morphProgress_clamped (events : list Event) (s : Scene) :
  aligned s ->
  0 <= morphProgress s <= 1 ->
  exists s',
    run events s = Some s' /\
    0 <= morphProgress s' <= 1 /\
    forall hand, exists s'',
      animate hand s' = Some s'' /\
      0 <= morphProgress s'' <= 1 /\
      morphProgress s'' =
        match currentState s' with
        | tree => Qmin 1 (morphProgress s' + transitionSpeed CONFIG)
        | exploded => Qmax 0 (morphProgress s' - transitionSpeed CONFIG)
        | zoomed => morphProgress s'
        end.
Proof.
  intros Hal Hrange.
  assert (Hrun : exists s', run events s = Some s' /\ aligned s' /\
                            0 <= morphProgress s' <= 1).
  { revert s Hal Hrange. induction events as [|e events IH]; intros s Hal Hrange.
    - exists s. split; [reflexivity|]. split; [exact Hal | exact Hrange].
    - destruct (step_aligned Math_sin Math_cos e s Hal) as (s1 & H1 & _ & Hal1 & _).
      assert (Hrange1 : 0 <= morphProgress s1 <= 1).
      { rewrite (step_morphProgress e s s1 H1).
        destruct e; try exact Hrange. apply tick_range. exact Hrange. }
      destruct (IH s1 Hal1 Hrange1) as (s' & Hrun & Hal' & Hrange').
      exists s'. cbn [Main.run]. rewrite H1. cbn [bind]. tauto. }
  destruct Hrun as (s' & Hrun & Hal' & Hrange').
  exists s'. split; [exact Hrun|]. split; [exact Hrange'|].
  intros hand.
  destruct (animate_aligned Math_sin Math_cos hand s' Hal') as (s'' & Hframe & _).
  exists s''. split; [exact Hframe|].
  pose proof (step_morphProgress (AnimationFrame hand) s' s'' Hframe) as Hm.
  cbn beta iota in Hm. rewrite Hm.
  split; [apply tick_range; exact Hrange' | reflexivity].
Qed.

End Morph.

(** Polynomial stand-ins for the two trigonometric functions, for running
    the model on examples. *)
Definition sinTaylor (t : Q) : Q := t - t ^ 3 / 6.
Definition cosTaylor (t : Q) : Q := 1 - t ^ 2 / 2.

Lemma morphProgress_clamped_witness :
  exists s',
    run sinTaylor cosTaylor
      [GestureChange open; AnimationFrame None; AnimationFrame (Some 0.4)]
      globals = Some s' /\
    0 <= morphProgress s' <= 1 /\
    forall hand, exists s'',
      animate sinTaylor cosTaylor hand s' = Some s'' /\
      0 <= morphProgress s'' <= 1 /\
      morphProgress s'' =
        match currentState s' with
        | tree => Qmin 1 (morphProgress s' + transitionSpeed CONFIG)
        | exploded => Qmax 0 (morphProgress s' - transitionSpeed CONFIG)
        | zoomed => morphProgress s'
        end.
Proof.
  apply (morphProgress_clamped sinTaylor cosTaylor
           [GestureChange open; AnimationFrame None; AnimationFrame (Some 0.4)]
           globals).
  - repeat split.
  - simpl. lra.
Defined.

(** Sample particle generators, for running the model on examples. *)
Definition sampleTree (i : nat) : Vec3 :=
  mkVec3 0 (6 - inject_Z (Z.of_nat i) / 10000) 0.
Definition sampleExploded (i : nat) : Vec3 :=
  mkVec3 (inject_Z (Z.of_nat i) / 1000) 3 (-5).

(** ** The saved state *)

Section SavedState.

Variables (Math_sin Math_cos : Q -> Q).
Variables (treeGen explodedGen : nat -> Vec3).

Notation step := (step Math_sin Math_cos).
Notation run := (run Math_sin Math_cos).
Notation reachable := (reachable Math_sin Math_cos treeGen explodedGen).

(** No handler stores ['zoomed'] in [previousState]. *)
Lemma step_previousState (e : Event) (s s' : Scene) :
  step e s = Some s' ->
  previousState s <> zoomed ->
  previousState s' <> zoomed.
Proof.
  destruct e as [g|k|k| |b|i|hand]; cbn [Main.step].
  7: { intros H. apply animate_control in H.
       destruct H as (_ & -> & _). tauto. }
  6: { destruct (SAMPLE_IMAGES !! i); [destruct (loaded i s)|];
         intros H; injection H as <-; tauto. }
  all: intros H; injection H as <-.
  - destruct s as [? ? ? ? ? ? c ? ? ? ? p ? ? ? ?], g, c, p;
      unfold handleGestureChange, zoomToNearestImage, bestImage,
        enterZoom, unzoomImage, updateGestureUI; cbn;
      handler_cases; cbn; congruence.
  - destruct s as [? ? ? ? ? ? c ? ? ? ? p ? ? ? ?], k, c, p;
      unfold keydown, zoomSelectedImage, enterZoom, unzoomImage,
        updateGestureUI; cbn;
      handler_cases; cbn; congruence.
  - destruct s as [? ? ? ? ? ? c ? ? ? ? p ? ? ? ?], k, c, p; cbn; congruence.
  - tauto.
  - destruct b; tauto.
Qed.

Lemma run_previousState (events : list Event) (s s' : Scene) :
  run events s = Some s' ->
  previousState s <> zoomed ->
  previousState s' <> zoomed.
Proof.
  revert s. induction events as [|e events IH]; intros s; cbn [Main.run].
  - intros H. injection H as <-. tauto.
  - destruct (step e s) as [s1|] eqn:E; [|discriminate]. cbn [bind].
    intros Hrun Hs. apply (IH s1 Hrun). apply (step_previousState e s s1 E Hs).
Qed.

Lemma init_previousState :
  previousState (init treeGen explodedGen) = tree.
Proof.
  destruct (init_spec treeGen explodedGen) as (H & _).
  apply (f_equal previousState) in H.
  destruct (init treeGen explodedGen). exact H.
Qed.

(** C9.  In every reachable state [previousState] is ['tree'] or
    ['exploded'], never ['zoomed']; so both unzoom paths that restore the
    saved state (the ['none'] gesture and the release of the Z key) leave
    the zoomed state for a state that is not ['zoomed']. *)
Theorem previousState_never_zoomed (s : Scene) :
  reachable s ->
  previousState s <> zoomed /\
  (previousState s = tree \/ previousState s = exploded) /\
  (currentState s = zoomed ->
   currentState (handleGestureChange none s) = previousState s /\
   currentState (handleGestureChange none s) <> zoomed /\
   currentState (keyup Key_z s) = previousState s /\
   currentState (keyup Key_z s) <> zoomed).
Proof.
  intros [events Hrun].
  assert (Hprev : previousState s <> zoomed).
  { apply (run_previousState events _ s Hrun).
    rewrite init_previousState. discriminate. }
  split; [exact Hprev|]. split.
  - destruct (previousState s); [left | right | exfalso]; congruence.
  - intros Hz. clear Hrun.
    destruct s as [? ? ? ? ? ? c ? ? ? ? p ? ? ? ?]. cbn in *. subst c.
    cbn. tauto.
Qed.

End SavedState.

Lemma previousState_never_zoomed_witness :
  previousState
    (handleGestureChange open (init sampleTree sampleExploded)) <> zoomed.
Proof.
  apply (proj1 (previousState_never_zoomed sinTaylor cosTaylor
                  sampleTree sampleExploded
                  (handleGestureChange open (init sampleTree sampleExploded))
                  (ex_intro _ [GestureChange open] eq_refl))).
Defined.

(** ** Keyboard selection *)

Definition imageCount : Z := Z.of_nat (length SAMPLE_IMAGES).

Definition isKeyEvent (e : Event) : Prop :=
  match e with
  | KeyDown _ | KeyUp _ => True
  | _ => False
  end.

Section Keyboard.

Variables (Math_sin Math_cos : Q -> Q).

Notation step := (step Math_sin Math_cos).
Notation run := (run Math_sin Math_cos).

Lemma keydown_selectedImageIndex (k : Key) (s : Scene) :
  selectedImageIndex (keydown k s) =
    match k, currentState s with
    | Key_arrowleft, exploded => Z.max 0 (selectedImageIndex s - 1)
    | Key_arrowright, exploded =>
        Z.min (imageCount - 1) (selectedImageIndex s + 1)
    | _, _ => selectedImageIndex s
    end.
Proof.
  destruct s as [? ? ? ? ? ? c ? ? ? ? p ? ? ? ?], k, c;
    unfold keydown, zoomSelectedImage, enterZoom, unzoomImage,
      updateGestureUI; cbn;
    handler_cases; reflexivity.
Qed.

Lemma keyup_selectedImageIndex (k : Key) (s : Scene) :
  selectedImageIndex (keyup k s) = selectedImageIndex s.
Proof.
  destruct s as [? ? ? ? ? ? c ? ? ? ? p ? ? ? ?], k, c; reflexivity.
Qed.

(** C8.  Every sequence of key events runs without error and keeps
    [selectedImageIndex] within [0, imageCount - 1]; afterwards, in state
    ['exploded'], select-previous gives [max 0 (index - 1)], hence 0 at
    index 0, and select-next gives [min (imageCount - 1) (index + 1)],
    hence [imageCount - 1] at the last index. *)
Theorem selectedImageIndex_clamped (events : list Event) (s : Scene) :
  Forall isKeyEvent events ->
  (0 <= selectedImageIndex s <= imageCount - 1)%Z ->
  exists s',
    run events s = Some s' /\
    (0 <= selectedImageIndex s' <= imageCount - 1)%Z /\
    (currentState s' = exploded ->
     selectedImageIndex (keydown Key_arrowleft s') =
       Z.max 0 (selectedImageIndex s' - 1) /\
     selectedImageIndex (keydown Key_arrowright s') =
       Z.min (imageCount - 1) (selectedImageIndex s' + 1) /\
     (selectedImageIndex s' = 0%Z ->
      selectedImageIndex (keydown Key_arrowleft s') = 0%Z) /\
     (selectedImageIndex s' = (imageCount - 1)%Z ->
      selectedImageIndex (keydown Key_arrowright s') = (imageCount - 1)%Z)).
Proof.
  intros Hkeys Hrange.
  assert (Hrun : exists s', run events s = Some s' /\
                   (0 <= selectedImageIndex s' <= imageCount - 1)%Z).
  { revert s Hrange. induction Hkeys as [|e events He _ IH]; intros s Hrange.
    - exists s. split; [reflexivity | exact Hrange].
    - destruct e as [g|k|k| |b|i|hand]; try contradiction; cbn [Main.run Main.step bind].
      + apply IH. rewrite keydown_selectedImageIndex.
        change (imageCount - 1)%Z with 5%Z in *.
        destruct k, (currentState s); lia.
      + apply IH. rewrite keyup_selectedImageIndex. exact Hrange. }
  destruct Hrun as (s' & Hrun & Hrange').
  exists s'. split; [exact Hrun|]. split; [exact Hrange'|].
  intros Hexp. rewrite !keydown_selectedImageIndex, Hexp.
  change (imageCount - 1)%Z with 5%Z in *.
  repeat split; try reflexivity; intros ->; reflexivity.
Qed.

End Keyboard.

Lemma selectedImageIndex_clamped_witness :
  exists s',
    run sinTaylor cosTaylor
      [KeyDown Key_o; KeyDown Key_arrowleft; KeyDown Key_arrowright;
       KeyDown Key_arrowright; KeyUp Key_z; KeyDown Key_other]
      globals = Some s' /\
    (0 <= selectedImageIndex s' <= imageCount - 1)%Z.
Proof.
  destruct (selectedImageIndex_clamped sinTaylor cosTaylor
              [KeyDown Key_o; KeyDown Key_arrowleft; KeyDown Key_arrowright;
               KeyDown Key_arrowright; KeyUp Key_z; KeyDown Key_other]
              globals) as (s' & Hrun & Hrange & _).
  - repeat constructor.
  - vm_compute. split; discriminate.
  - exists s'. split; [exact Hrun | exact Hrange].
Defined.

(** ** The orbit selector *)

Section Orbit.

Variables (Math_sin Math_cos : Q -> Q).

Notation updateImageVisibility := (updateImageVisibility Math_sin Math_cos).
Notation orbitPass := (orbitPass Math_sin Math_cos).

(** The depth coordinate given to a sprite of base angle [angle]. *)
Definition orbitZ (s : Scene) (angle : Q) : Q :=
  Math_sin (angle + treeRotation s)
  * lerp hiddenRadius orbitRadius (easeInOutCubic (1 - morphProgress s)).

(** The camera-facing comparison [z > maxZ && currentState === 'exploded']
    of a slot, while no slot has satisfied it yet ([maxZ] is still
    [-Infinity]). *)
Definition facing (s : Scene) (sprite : Sprite) : bool :=
  match baseAngle sprite with
  | Some angle =>
      gtInf (orbitZ s angle) NegInfinity
      && DisplayState_eqb (currentState s) exploded
  | None => false
  end.

(** No slot satisfies the comparison during the tick. *)
Definition noSlotFacing (s : Scene) : Prop :=
  forall sprite, In sprite (imageSprites s) -> facing s sprite = false.

Lemma orbitPass_noFacing (s : Scene) (sprites : list Sprite) :
  (forall sprite, In sprite sprites -> facing s sprite = false) ->
  forall i front,
    snd (orbitPass (treeRotation s) (1 - morphProgress s) (currentState s)
           sprites i NegInfinity front) = (NegInfinity, front).
Proof.
  induction sprites as [|sprite rest IH]; intros Hno i front; [reflexivity|].
  cbn [Main.orbitPass].
  pose proof (Hno sprite (or_introl eq_refl)) as Hs. unfold facing in Hs.
  destruct (baseAngle sprite) as [angle|]; cbn [snd fst].
  - unfold orbitZ in Hs. rewrite Hs. cbn [fst snd].
    apply IH. intros sp Hin. apply Hno. right. exact Hin.
  - apply IH. intros sp Hin. apply Hno. right. exact Hin.
Qed.

Lemma updateImageVisibility_selectedImageIndex (s : Scene) :
  selectedImageIndex (updateImageVisibility s) =
    if DisplayState_eqb (currentState s) exploded
    then Z.of_nat
           (snd (snd (orbitPass (treeRotation s) (1 - morphProgress s)
                        (currentState s) (imageSprites s) 0 NegInfinity 0)))
    else selectedImageIndex s.
Proof.
  destruct s as [? ? ? ? ? ? c ? ? ? ? p ? ? ? ?].
  unfold Main.updateImageVisibility. cbn. destruct c; reflexivity.
Qed.

(** C7, as the code has it.  On a tick in which no orbit slot satisfies
    the camera-facing comparison, [selectedImageIndex] keeps its value when
    the state is not ['exploded'], and becomes 0 (the initial
    [frontImageIndex]) when the state is ['exploded']; the latter happens
    in particular with no sprite at all. *)
Theorem updateImageVisibility_noFacing (s : Scene) :
  noSlotFacing s ->
  selectedImageIndex (updateImageVisibility s) =
    (if DisplayState_eqb (currentState s) exploded
     then 0%Z
     else selectedImageIndex s) /\
  (currentState s <> exploded ->
   selectedImageIndex (updateImageVisibility s) = selectedImageIndex s) /\
  (currentState s = exploded ->
   selectedImageIndex (updateImageVisibility s) = 0%Z).
Proof.
  intros Hno.
  assert (H : selectedImageIndex (updateImageVisibility s) =
              if DisplayState_eqb (currentState s) exploded
              then 0%Z else selectedImageIndex s).
  { rewrite updateImageVisibility_selectedImageIndex.
    rewrite (orbitPass_noFacing s (imageSprites s) Hno 0%nat 0%nat).
    reflexivity. }
  split; [exact H|]. rewrite H. split.
  - intros Hne. apply DisplayState_eqb_neq in Hne. rewrite Hne. reflexivity.
  - intros ->. reflexivity.
Qed.

End Orbit.

(** The scene after the keys O and right arrow, before any texture has
    loaded: exploded, no sprite, image 1 selected. *)
Definition explodedNoSprite : Scene :=
  keydown Key_arrowright (keydown Key_o globals).

Lemma updateImageVisibility_noFacing_witness :
  selectedImageIndex
    (updateImageVisibility sinTaylor cosTaylor explodedNoSprite) = 0%Z.
Proof.
  apply (updateImageVisibility_noFacing sinTaylor cosTaylor explodedNoSprite).
  - intros sprite [].
  - reflexivity.
Defined.

(** C7 as stated fails: with no sprite at all no slot satisfies the
    comparison, yet a tick in state ['exploded'] moves the selection from
    1 to 0. *)
Lemma updateImageVisibility_resets :
  run sinTaylor cosTaylor [KeyDown Key_o; KeyDown Key_arrowright] globals =
    Some explodedNoSprite /\
  imageSprites explodedNoSprite = [] /\
  noSlotFacing sinTaylor explodedNoSprite /\
  selectedImageIndex explodedNoSprite = 1%Z /\
  selectedImageIndex
    (updateImageVisibility sinTaylor cosTaylor explodedNoSprite) = 0%Z /\
  selectedImageIndex
    (updateImageVisibility sinTaylor cosTaylor explodedNoSprite)
    <> selectedImageIndex explodedNoSprite.
Proof.
  split; [reflexivity|].
  split; [reflexivity|]. split; [intros sprite []|].
  split; [reflexivity|]. split; [reflexivity | discriminate].
Qed.

(** ** The OK gesture *)





Section OkGesture.

Lemma findSelected_spec (sprites : list Sprite) :
  forall (i0 : nat) (acc : option nat),
    match findSelected sprites i0 acc with
    | Some j =>
        (exists sprite, sprites !! (j - i0)%nat = Some sprite /\
           (i0 <= j)%nat /\ isSelected sprite = true /\
           forall k sprite', (j - i0 < k)%nat -> sprites !! k = Some sprite' ->
                             isSelected sprite' = false) \/
        (acc = Some j /\
         forall sprite, In sprite sprites -> isSelected sprite = false)
    | None =>
        acc = None /\
        forall sprite, In sprite sprites -> isSelected sprite = false
    end.
Proof.
  induction sprites as [|sprite rest IH]; intros i0 acc; cbn [findSelected].
  - destruct acc; [right|]; split; try reflexivity; intros ? [].
  - specialize (IH (S i0) (if isSelected sprite then Some i0 else acc)).
    destruct (findSelected rest (S i0) _) as [j|].
    + destruct IH as [(sp & Hsp & Hle & Hsel & Hlast)|[Hacc Hnone]].
      * left. exists sp.
        replace (j - i0)%nat with (S (j - S i0)) by lia.
        split; [exact Hsp|]. split; [lia|]. split; [exact Hsel|].
        intros k sp' Hk Hlook. destruct k as [|k]; [lia|].
        apply (Hlast k sp'); [lia | exact Hlook].
      * destruct (isSelected sprite) eqn:E.
        -- injection Hacc as <-. left. exists sprite.
           replace (i0 - i0)%nat with 0%nat by lia.
           split; [reflexivity|]. split; [lia|]. split; [exact E|].
           intros k sp' Hk Hlook. destruct k as [|k]; [lia|].
           apply Hnone. apply list_elem_of_In.
           apply (list_elem_of_lookup_2 _ k). exact Hlook.
        -- right. split; [exact Hacc|].
           intros sp [<-|Hin]; [exact E | apply Hnone; exact Hin].
    + destruct IH as [Hacc Hnone].
      destruct (isSelected sprite) eqn:E; [discriminate|].
      split; [exact Hacc|].
      intros sp [<-|Hin]; [exact E | apply Hnone; exact Hin].
Qed.

(** [bestImage] is the last sprite flagged [isSelected] or, when no sprite
    is flagged, the sprite at [selectedImageIndex] if there is one. *)
Lemma bestImage_spec (s : Scene) (i : nat) :
  bestImage s = Some i <->
  (exists sprite,
     imageSprites s !! i = Some sprite /\ isSelected sprite = true /\
     forall k sprite', (i < k)%nat -> imageSprites s !! k = Some sprite' ->
                       isSelected sprite' = false) \/
  ((forall sprite, In sprite (imageSprites s) -> isSelected sprite = false) /\
   (0 <= selectedImageIndex s < Z.of_nat (length (imageSprites s)))%Z /\
   i = Z.to_nat (selectedImageIndex s)).
Proof.
  unfold bestImage.
  pose proof (findSelected_spec (imageSprites s) 0 None) as H.
  destruct (findSelected (imageSprites s) 0 None) as [j|].
  - destruct H as [(sp & Hsp & _ & Hsel & Hlast)|[Hacc _]]; [|discriminate].
    rewrite Nat.sub_0_r in Hsp.
    assert (Hin : In sp (imageSprites s)).
    { apply list_elem_of_In. apply (list_elem_of_lookup_2 _ j). exact Hsp. }
    split.
    + intros E. injection E as <-. left. exists sp.
      split; [exact Hsp|]. split; [exact Hsel|].
      intros k sp' Hk. apply Hlast. lia.
    + intros [(sp' & Hsp' & Hsel' & Hlast')|(Hnone & _)].
      * f_equal. destruct (Nat.lt_trichotomy i j) as [Hlt|[->|Hgt]].
        -- rewrite (Hlast' j sp Hlt Hsp) in Hsel. discriminate.
        -- reflexivity.
        -- rewrite (Hlast i sp' ltac:(lia) Hsp') in Hsel'. discriminate.
      * rewrite (Hnone sp Hin) in Hsel. discriminate.
  - destruct H as [_ Hnone].
    destruct (Z.leb_spec 0 (selectedImageIndex s)) as [H0|H0];
      destruct (Z.ltb_spec (selectedImageIndex s)
                  (Z.of_nat (length (imageSprites s)))) as [H1|H1];
      cbn [andb]; split.
    all: try discriminate.
    all: try (intros [(sp & Hsp & Hsel & _)|(_ & Hr & _)];
              [exfalso;
               assert (In sp (imageSprites s))
                 by (apply list_elem_of_In;
                     apply (list_elem_of_lookup_2 _ i); exact Hsp);
               rewrite (Hnone sp) in Hsel by assumption; discriminate
              | lia]).
    + intros E. injection E as <-. right. split; [exact Hnone|]. split; [lia | reflexivity].
    + intros [(sp & Hsp & Hsel & _)|(_ & _ & ->)]; [|reflexivity].
      exfalso.
      assert (In sp (imageSprites s))
        by (apply list_elem_of_In; apply (list_elem_of_lookup_2 _ i); exact Hsp).
      rewrite (Hnone sp) in Hsel by assumption. discriminate.
Qed.






End OkGesture.

(** ** Rendered particle positions *)

Section Rendering.

Variables (Math_sin Math_cos : Q -> Q).
Variables (treeGen explodedGen : nat -> Vec3).

Notation animate := (animate Math_sin Math_cos).
Notation run := (run Math_sin Math_cos).
Notation reachable := (reachable Math_sin Math_cos treeGen explodedGen).





End Rendering.


(** ** Closing the zoom overlay *)

(** The first image: its address and the base angle its sprite gets. *)
Definition url0 : string :=
  "../hinh/z7326700462084_d02bb6716052953273e0c6072e069a32.jpg".

Definition angle0 : Q :=
  (inject_Z (Z.of_nat 0) / inject_Z (Z.of_nat (length SAMPLE_IMAGES)))
  * Math_PI * 2.

(** A particle-free scene in state [cs] that was exploded before, holding
    the sprite of the first image only, with image 0 selected and the
    overlay hidden. *)
Definition orbitScene (cs : DisplayState) (clock mp rot target : Q)
    (ui : UiLabel) (op : Q) (pos scl : Vec3) (flag : bool) : Scene :=
  mkScene clock [] [] [] []
    [mkSprite op pos scl url0 0 2 (Some angle0) flag]
    cs mp rot target None exploded 0%Z true EmptyString ui.

(** Such a scene, with morph progress in [0, m] and opacity at least [o]. *)
Definition orbiting (cs : DisplayState) (m o : Q) (s : Scene) : Prop :=
  exists clock mp rot target ui op pos scl flag,
    s = orbitScene cs clock mp rot target ui op pos scl flag /\
    0 <= mp <= m /\ o <= op.

(** The events of the scenario: the first texture loads and the hand
    opens; twenty-five frames pass; the hand closes; six frames pass; the
    hand makes the OK sign. *)
Definition zoomFromTree : list Event :=
  [TextureLoaded 0; GestureChange open]
  ++ repeat (AnimationFrame (Some 0.5)) 25
  ++ [GestureChange fist]
  ++ repeat (AnimationFrame (Some 0.5)) 6
  ++ [GestureChange ok].

(** [Math.max] and [Math.min] return one of their arguments. *)
Lemma Qmax_cases (a b : Q) :
  (b <= a /\ Qmax a b = a) \/ (a < b /\ Qmax a b = b).
Proof.
  unfold Qmax, GenericMinMax.gmax.
  destruct (a ?= b) eqn:E.
  - left. split; [|reflexivity]. apply Qeq_alt in E. rewrite E. apply Qle_refl.
  - right. split; [|reflexivity]. apply Qlt_alt. exact E.
  - left. split; [|reflexivity]. apply Qgt_alt in E. apply Qlt_le_weak. exact E.
Qed.

Lemma Qmin_cases (a b : Q) :
  (a <= b /\ Qmin a b = a) \/ (b < a /\ Qmin a b = b).
Proof.
  unfold Qmin, GenericMinMax.gmin.
  destruct (a ?= b) eqn:E.
  - left. split; [|reflexivity]. apply Qeq_alt in E. rewrite E. apply Qle_refl.
  - left. split; [|reflexivity]. apply Qlt_le_weak, Qlt_alt. exact E.
  - right. split; [|reflexivity]. apply Qgt_alt. exact E.
Qed.

Section CloseZoom.

Variables (Math_sin Math_cos : Q -> Q).

Notation animate := (animate Math_sin Math_cos).
Notation run := (run Math_sin Math_cos).

(** The four steps of a frame on such a scene. *)
Lemma advanceMorph_orbitScene (cs : DisplayState) (clock mp rot target : Q)
    (ui : UiLabel) (op : Q) (pos scl : Vec3) (flag : bool) :
  advanceMorph (orbitScene cs clock mp rot target ui op pos scl flag) =
  orbitScene cs (clock + 0.016) (tick cs mp) rot target ui op pos scl flag.
Proof. destruct cs; reflexivity. Qed.

Lemma updateParticlePositions_orbitScene (cs : DisplayState)
    (clock mp rot target : Q) (ui : UiLabel) (op : Q) (pos scl : Vec3)
    (flag : bool) :
  updateParticlePositions (orbitScene cs clock mp rot target ui op pos scl flag) =
  Some (orbitScene cs clock mp rot target ui op pos scl flag).
Proof. reflexivity. Qed.

Lemma updateImageVisibility_orbitScene (cs : DisplayState)
    (clock mp rot target : Q) (ui : UiLabel) (op : Q) (pos scl : Vec3)
    (flag : bool) :
  exists pos' scl',
    updateImageVisibility Math_sin Math_cos
      (orbitScene cs clock mp rot target ui op pos scl flag) =
    orbitScene cs clock mp rot target ui
      (lerp op (if Qltb 0.5 (1 - mp) then 1 - mp else 0) 0.1) pos' scl'
      (DisplayState_eqb cs exploded).
Proof. destruct cs; do 2 eexists; reflexivity. Qed.

Lemma updateRotation_orbitScene (hand : option Q) (cs : DisplayState)
    (clock mp rot target : Q) (ui : UiLabel) (op : Q) (pos scl : Vec3)
    (flag : bool) :
  exists rot' target',
    updateRotation hand (orbitScene cs clock mp rot target ui op pos scl flag) =
    orbitScene cs clock mp rot' target' ui op pos scl flag.
Proof. destruct hand; do 2 eexists; reflexivity. Qed.

(** One frame on such a scene, computed. *)
Lemma animate_orbitScene (hand : option Q) (cs : DisplayState)
    (clock mp rot target : Q) (ui : UiLabel) (op : Q) (pos scl : Vec3)
    (flag : bool) :
  exists clock' rot' target' pos' scl' flag',
    animate hand (orbitScene cs clock mp rot target ui op pos scl flag) =
      Some (orbitScene cs clock' (tick cs mp) rot' target' ui
              (lerp op (if Qltb 0.5 (1 - tick cs mp)
                        then 1 - tick cs mp else 0) 0.1)
              pos' scl' flag').
Proof.
  unfold Main.animate.
  rewrite advanceMorph_orbitScene, updateParticlePositions_orbitScene.
  cbn [bind].
  destruct (updateImageVisibility_orbitScene cs (clock + 0.016)
              (tick cs mp) rot target ui op pos scl flag)
    as (pos' & scl' & ->).
  destruct (updateRotation_orbitScene hand cs (clock + 0.016)
              (tick cs mp) rot target ui
              (lerp op (if Qltb 0.5 (1 - tick cs mp)
                        then 1 - tick cs mp else 0) 0.1)
              pos' scl' (DisplayState_eqb cs exploded))
    as (rot' & target' & ->).
  do 6 eexists. reflexivity.
Qed.

(** While the scene explodes the opacity never goes negative. *)
Lemma frame_descend (hand : option Q) (m o : Q) (s : Scene) :
  orbiting exploded m o s -> 0 <= o -> 0.06 <= m <= 1 ->
  exists s', animate hand s = Some s' /\ orbiting exploded (m - 0.06) 0 s'.
Proof.
  intros (clock & mp & rot & target & ui & op & pos & scl & flag & -> & Hmp & Hop)
    Ho Hm.
  destruct (animate_orbitScene hand exploded clock mp rot target ui op pos scl flag)
    as (clock' & rot' & target' & pos' & scl' & flag' & Hrun).
  eexists. split; [exact Hrun|].
  do 9 eexists. split; [reflexivity|].
  cbn [tick transitionSpeed CONFIG].
  destruct (Qmax_cases 0 (mp - 0.06)) as [[Hle ->]|[Hlt ->]].
  - split; [lra|].
    destruct (Qltb 0.5 (1 - 0)); unfold lerp; lra.
  - split; [lra|].
    destruct (Qltb 0.5 (1 - (mp - 0.06))); unfold lerp; lra.
Qed.

(** Once fully exploded the sprite fades in towards opacity 1. *)
Lemma frame_full (hand : option Q) (m o : Q) (s : Scene) :
  orbiting exploded m o s -> 0 <= o -> m <= 0.06 ->
  exists s', animate hand s = Some s' /\
             orbiting exploded m (0.9 * o + 0.1) s'.
Proof.
  intros (clock & mp & rot & target & ui & op & pos & scl & flag & -> & Hmp & Hop)
    Ho Hm.
  destruct (animate_orbitScene hand exploded clock mp rot target ui op pos scl flag)
    as (clock' & rot' & target' & pos' & scl' & flag' & Hrun).
  eexists. split; [exact Hrun|].
  do 9 eexists. split; [reflexivity|].
  cbn [tick transitionSpeed CONFIG].
  destruct (Qmax_cases 0 (mp - 0.06)) as [[Hle ->]|[Hlt ->]]; [|lra].
  split; [lra|].
  assert (E : Qltb 0.5 (1 - 0) = true) by reflexivity.
  rewrite E. unfold lerp. lra.
Qed.

(** While the tree forms again the sprite fades out, by a tenth per frame
    at most. *)
Lemma frame_tree (hand : option Q) (o : Q) (s : Scene) :
  orbiting tree 1 o s -> 0 <= o ->
  exists s', animate hand s = Some s' /\ orbiting tree 1 (0.9 * o) s'.
Proof.
  intros (clock & mp & rot & target & ui & op & pos & scl & flag & -> & Hmp & Hop)
    Ho.
  destruct (animate_orbitScene hand tree clock mp rot target ui op pos scl flag)
    as (clock' & rot' & target' & pos' & scl' & flag' & Hrun).
  eexists. split; [exact Hrun|].
  do 9 eexists. split; [reflexivity|].
  cbn [tick transitionSpeed CONFIG].
  destruct (Qmin_cases 1 (mp + 0.06)) as [[Hle ->]|[Hlt ->]].
  - split; [lra|].
    destruct (Qltb 0.5 (1 - 1)); unfold lerp; lra.
  - split; [lra|].
    destruct (Qltb 0.5 (1 - (mp + 0.06))) eqn:E; unfold lerp; lra.
Qed.

Lemma run_frame (hand : option Q) (rest : list Event) (s s1 : Scene) :
  animate hand s = Some s1 ->
  run (AnimationFrame hand :: rest) s = run rest s1.
Proof. intros H. cbn [Main.run Main.step]. rewrite H. reflexivity. Qed.

Lemma run_gesture (g : Gesture) (rest : list Event) (s : Scene) :
  run (GestureChange g :: rest) s = run rest (handleGestureChange g s).
Proof. reflexivity. Qed.

(** One frame of the scenario: [L] is the lemma for the current phase and
    [H] the hypothesis holding the current bounds. *)
Ltac frame L H :=
  let s' := fresh "s" in
  let Hrun := fresh "Hrun" in
  let H' := fresh "H" in
  first [ destruct (L (Some 0.5) _ _ _ H ltac:(lra) ltac:(lra))
            as (s' & Hrun & H')
        | destruct (L (Some 0.5) _ _ H ltac:(lra)) as (s' & Hrun & H') ];
  rewrite (run_frame (Some 0.5) _ _ _ Hrun); clear Hrun H; rename H' into H.

(** On a scene without particles the scenario ends zoomed, with ['tree']
    saved and the overlay shown. *)
Lemma zoomFromTree_globals :
  exists s,
    run zoomFromTree globals = Some s /\
    currentState s = zoomed /\ previousState s = tree /\
    zoomOverlayHidden s = false.
Proof.
  unfold zoomFromTree. rewrite (run_app Math_sin Math_cos).
  assert (Hpre : run [TextureLoaded 0; GestureChange open] globals =
                 Some (handleGestureChange open
                         (textureLoaded Math_sin Math_cos 0 url0 globals)))
    by reflexivity.
  rewrite Hpre. clear Hpre. cbn [bind repeat app].
  assert (H0 : orbiting exploded 1 0
                 (handleGestureChange open
                    (textureLoaded Math_sin Math_cos 0 url0 globals))).
  { exists 0, 1, 0, 0, UiOpen, 0,
      (mkVec3 (Math_cos angle0 * hiddenRadius) 0 (Math_sin angle0 * hiddenRadius)),
      (mkVec3 2 2 1), false.
    split; [reflexivity|]. lra. }
  revert H0.
  generalize (handleGestureChange open
                (textureLoaded Math_sin Math_cos 0 url0 globals)) as s0.
  intros s0 H0.
  do 16 frame frame_descend H0.
  do 9 frame frame_full H0.
  destruct H0 as (clock & mp & rot & target & ui & op & pos & scl & flag
                  & -> & Hmp & Hop).
  rewrite run_gesture.
  assert (H1 : orbiting tree 1 (6 # 10)
                 (handleGestureChange fist
                    (orbitScene exploded clock mp rot target ui op pos scl flag))).
  { exists clock, mp, rot, target, UiFist, op, pos, scl, flag.
    split; [reflexivity|]. lra. }
  revert H1.
  generalize (handleGestureChange fist
                (orbitScene exploded clock mp rot target ui op pos scl flag))
    as closed.
  clear Hmp Hop clock mp rot target ui op pos scl flag. intros closed H1.
  do 6 frame frame_tree H1.
  destruct H1 as (clock & mp & rot & target & ui & op & pos & scl & flag
                  & -> & Hmp & Hop).
  assert (E : Qltb 0.3 op = true) by (apply Qltb_lt; lra).
  cbn [Main.run Main.step bind].
  eexists. split; [reflexivity|].
  unfold handleGestureChange, zoomToNearestImage, bestImage, orbitScene.
  destruct flag; cbn -[Qltb];
    change (0 <? Z.of_nat 1)%Z with true; cbn -[Qltb];
    change (Z.to_nat 0) with 0%nat; cbn -[Qltb];
    rewrite E; repeat split.
Qed.

End CloseZoom.

(** ** The close button *)

Section CloseButton.

Variables (Math_sin Math_cos : Q -> Q).
Variables (treeGen explodedGen : nat -> Vec3).

Notation run := (run Math_sin Math_cos).
Notation reachable := (reachable Math_sin Math_cos treeGen explodedGen).

Lemma strip_control (s : Scene) :
  currentState (strip s) = currentState s /\
  previousState (strip s) = previousState s /\
  zoomOverlayHidden (strip s) = zoomOverlayHidden s.
Proof. destruct s. repeat split. Qed.

(** The scenario [zoomFromTree] can happen, and ends zoomed with ['tree']
    saved and the overlay shown. *)
Lemma zoomFromTree_reachable :
  exists s,
    reachable s /\
    currentState s = zoomed /\ previousState s = tree /\
    zoomOverlayHidden s = false.
Proof.
  destruct (init_spec treeGen explodedGen) as (Hstrip & Hal & _).
  destruct (run_aligned Math_sin Math_cos zoomFromTree _ Hal)
    as (s & Hrun & Hrun' & _).
  rewrite Hstrip in Hrun'.
  destruct (zoomFromTree_globals Math_sin Math_cos) as (sz & Hz & Hc & Hp & Ho).
  assert (sz = strip s) by congruence. subst sz.
  destruct (strip_control s) as (Ec & Ep & Eo).
  exists s. split; [exists zoomFromTree; exact Hrun|].
  repeat split; congruence.
Qed.

(** C10.  A click on the close button, or on the background of the
    overlay, hides the overlay and sets the state to ['exploded'] whatever
    [previousState] holds, whereas the ['none'] gesture and the release of
    the Z key take a zoomed scene back to [previousState]; and some
    reachable scene is zoomed with ['tree'] saved, so that closing the
    overlay there leads to ['exploded'] where the other two paths lead to
    ['tree']. *)
Theorem closeZoom_forces_exploded :
  (forall s,
     currentState (closeZoomClick s) = exploded /\
     currentState (overlayClick true s) = exploded /\
     zoomOverlayHidden (closeZoomClick s) = true /\
     zoomOverlayHidden (overlayClick true s) = true /\
     previousState (closeZoomClick s) = previousState s /\
     previousState (overlayClick true s) = previousState s) /\
  (forall s,
     currentState s = zoomed ->
     currentState (handleGestureChange none s) = previousState s /\
     currentState (keyup Key_z s) = previousState s) /\
  (exists s,
     reachable s /\
     currentState s = zoomed /\
     previousState s = tree /\
     zoomOverlayHidden s = false /\
     currentState (closeZoomClick s) = exploded /\
     currentState (overlayClick true s) = exploded /\
     currentState (handleGestureChange none s) = tree /\
     currentState (keyup Key_z s) = tree).
Proof.
  assert (Hclose : forall s,
     currentState (closeZoomClick s) = exploded /\
     currentState (overlayClick true s) = exploded /\
     zoomOverlayHidden (closeZoomClick s) = true /\
     zoomOverlayHidden (overlayClick true s) = true /\
     previousState (closeZoomClick s) = previousState s /\
     previousState (overlayClick true s) = previousState s)
    by (intros s; destruct s; repeat split).
  assert (Hrestore : forall s,
     currentState s = zoomed ->
     currentState (handleGestureChange none s) = previousState s /\
     currentState (keyup Key_z s) = previousState s).
  { intros s Hz. destruct s as [? ? ? ? ? ? c ? ? ? ? p ? ? ? ?].
    cbn in Hz. subst c. split; reflexivity. }
  split; [exact Hclose|]. split; [exact Hrestore|].
  destruct zoomFromTree_reachable as (s & Hreach & Hc & Hp & Ho).
  exists s. destruct (Hclose s) as (H1 & H2 & _).
  destruct (Hrestore s Hc) as (H3 & H4).
  repeat split; try assumption; congruence.
Qed.

End CloseButton.

End MainFacts.
